(** * Bouncing bodies in a rotating boundary: the physics step of [Canvas.tsx]

    A shallow embedding of [updatePhysics] (src/components/Canvas.tsx) and
    the properties its specification states about it.

    Numbers.  A JavaScript [number] is modelled as a real number: the
    arithmetic is exact, and NaN, the infinities and rounding are outside
    the model.  Comparisons of the source ([<], [>], [===]) become the
    decidable comparisons of [R].

    Objects.  The balls live in a store, the list [balls]; a reference to a
    ball is its index in that list.  The spatial grid holds references, so a
    ball moved by a collision is seen at its new place by every later pair
    that mentions it, as in the source. *)

From Stdlib Require Import Reals Lra Lia ZArith Ascii DecimalString DecimalNat.
From stdpp Require Import base gmap strings list.

Open Scope R_scope.

(** ** Data model (src/types, imported by Canvas.tsx) *)

(** Modelled from the spec: the type [Vector2] of src/types, which is not
    among the sources: [{x: float, y: float}], a value type. *)
Record Vector2 : Type := mkVector2 { x : R; y : R }.

(** Modelled from the spec: the type [Ball] of src/types, with the fields
    that [Canvas.tsx] writes when it creates a ball. *)
Record Ball : Type := mkBall {
  id : string;
  pos : Vector2;
  vel : Vector2;
  radius : R;
  color : string
}.

(** Modelled from the spec: the union ['star' | ...] behind
    [config.shapeType]; every value other than ['star'] takes the polygon
    branch of the source. *)
Inductive ShapeType : Type := star | polygon.

(** Modelled from the spec: the type [SimulationConfig] of src/types, with
    the fields that [updatePhysics] reads.  A [vertexCount] that is absent
    or zero is [0] here (both are falsy in [config.vertexCount || 4]). *)
Record SimulationConfig : Type := mkConfig {
  gravity : R;
  friction : R;
  restitution : R;
  ballSize : R;
  rotationSpeed : R;
  shapeType : ShapeType;
  vertexCount : nat
}.

(** Modelled from the spec: the type [GlobalSettings] of src/types. *)
Record GlobalSettings : Type := mkSettings {
  gravityMultiplier : R;
  timeScale : R;
  rotationMultiplier : R;
  bouncinessMultiplier : R
}.

(** The value of [stateRef.current]. *)
Record State : Type := mkState { balls : list Ball; rotation : R }.

(** Assignments [ball.pos = e] and [ball.vel = e]. *)
Definition set_pos (ball : Ball) (p : Vector2) : Ball :=
  mkBall (id ball) p (vel ball) (radius ball) (color ball).

Definition set_vel (ball : Ball) (v : Vector2) : Ball :=
  mkBall (id ball) (pos ball) v (radius ball) (color ball).

(** ** Vector math (src/utils/math, imported by Canvas.tsx) *)

(** Modelled from the spec: [add] of src/utils/math, vector addition. *)
Definition add (a b : Vector2) : Vector2 :=
  {| x := x a + x b; y := y a + y b |}.

(** Modelled from the spec: [sub] of src/utils/math, vector subtraction. *)
Definition sub (a b : Vector2) : Vector2 :=
  {| x := x a - x b; y := y a - y b |}.

(** Modelled from the spec: [mult] of src/utils/math, [scale(v, k)]. *)
Definition mult (v : Vector2) (k : R) : Vector2 :=
  {| x := x v * k; y := y v * k |}.

(** Modelled from the spec: [dot] of src/utils/math, the dot product. *)
Definition dot (a b : Vector2) : R := x a * x b + y a * y b.

(** Modelled from the spec: [mag] of src/utils/math, the Euclidean norm. *)
Definition mag (v : Vector2) : R := sqrt (x v * x v + y v * y v).

Definition zero : Vector2 := {| x := 0; y := 0 |}.

(** Modelled from the spec: [normalize] of src/utils/math, which returns the
    zero vector when the magnitude is about zero.  The spec leaves the
    threshold to the implementation ("a fixed epsilon, e.g. 1e-9"), so it is
    the parameter [epsilon]: magnitudes up to [epsilon] give the zero
    vector; [epsilon = 0] is the test [magnitude === 0]. *)
Definition normalize (epsilon : R) (v : Vector2) : Vector2 :=
  let m := mag v in
  if Rle_dec m epsilon then zero else {| x := x v / m; y := y v / m |}.

(** Modelled from the spec: [generatePolygon] of src/utils/math: vertex [i]
    at angle [theta + i * (2 PI / n)], radius [R], offset by [c]. *)
Definition generatePolygon (n : nat) (radius : R) (c : Vector2) (theta : R)
  : list Vector2 :=
  map (fun i : nat =>
         let a := theta + INR i * (2 * PI / INR n) in
         {| x := x c + radius * cos a; y := y c + radius * sin a |})
      (seq 0 n).

(** Modelled from the spec: [generateStar] of src/utils/math: [2 n]
    vertices, radius [R] at even and [r] at odd indices, angular step
    [PI / n]. *)
Definition generateStar (n : nat) (outer inner : R) (c : Vector2) (theta : R)
  : list Vector2 :=
  map (fun i : nat =>
         let a := theta + INR i * (PI / INR n) in
         let r := if Nat.even i then outer else inner in
         {| x := x c + r * cos a; y := y c + r * sin a |})
      (seq 0 (2 * n)).

(** ** The simulation step *)

Section Simulation.

(** The threshold of [normalize], and the props of the component, which
    [updatePhysics] closes over. *)
Variable epsilon : R.
Variable config : SimulationConfig.
Variable globalSettings : GlobalSettings.

(** *** 3. Update balls: forces and velocity (lines 74-88) *)

Definition integrate (ball : Ball) : Ball :=
  (* ball.vel.y += config.gravity * gravityMultiplier * timeScale *)
  let ball :=
    set_vel ball
      {| x := x (vel ball);
         y := y (vel ball)
              + gravity config * gravityMultiplier globalSettings
                * timeScale globalSettings |} in
  (* ball.vel = mult(ball.vel, 1 - config.friction * timeScale) *)
  let ball :=
    set_vel ball
      (mult (vel ball) (1 - friction config * timeScale globalSettings)) in
  let velocityMag := mag (vel ball) in
  let ball :=
    if Rgt_dec velocityMag 0.001 then
      let dragCoefficient := 0.003 in
      let dragAcceleration :=
        mult (vel ball) (- dragCoefficient * velocityMag) in
      set_vel ball
        (add (vel ball) (mult dragAcceleration (timeScale globalSettings)))
    else ball in
  (* ball.pos = add(ball.pos, mult(ball.vel, timeScale)) *)
  set_pos ball (add (pos ball) (mult (vel ball) (timeScale globalSettings))).

(** *** 3. Update balls: collision with walls (lines 90-122) *)

(** The inward normal of the edge from [p1] to [p2] (lines 96-103). *)
Definition edgeNormal (p1 p2 : Vector2) : Vector2 :=
  let edge := sub p2 p1 in
  let edgeNormal := normalize epsilon {| x := - y edge; y := x edge |} in
  if Rlt_dec (dot edgeNormal (mult p1 (-1))) 0
  then {| x := x edgeNormal * -1; y := y edgeNormal * -1 |}
  else edgeNormal.

(** [const restitution = config.restitution * bouncinessMultiplier]. *)
Definition wallRestitution : R :=
  restitution config * bouncinessMultiplier globalSettings.

(** The body of the loop over the edges (lines 94-121). *)
Definition resolveEdge (p1 p2 : Vector2) (ball : Ball) : Ball :=
  let edgeNormal := edgeNormal p1 p2 in
  let relPos := sub (pos ball) p1 in
  let dist := dot relPos edgeNormal in
  if Rlt_dec dist (radius ball) then
    let penetration := radius ball - dist in
    let ball := set_pos ball (add (pos ball) (mult edgeNormal penetration)) in
    let velDotNormal := dot (vel ball) edgeNormal in
    if Rlt_dec velDotNormal 0 then
      let reflect := mult edgeNormal (2 * velDotNormal) in
      let ball := set_vel ball (sub (vel ball) (mult reflect 1)) in
      let ball := set_vel ball (mult (vel ball) wallRestitution) in
      set_vel ball (add (vel ball) (mult edgeNormal 0.1))
    else ball
  else ball.

(** [for (let i = 0; i < localVertices.length; i++)], with
    [p1 = localVertices[i]] and
    [p2 = localVertices[(i + 1) % localVertices.length]]. *)
Definition wallCollisions (localVertices : list Vector2) (ball : Ball) : Ball :=
  foldl
    (fun ball i =>
       let p1 := nth i localVertices zero in
       let p2 := nth ((i + 1) mod length localVertices) localVertices zero in
       resolveEdge p1 p2 ball)
    ball (seq 0 (length localVertices)).

(** The callback of [state.balls.forEach] (lines 73-123). *)
Definition updateBall (localVertices : list Vector2) (ball : Ball) : Ball :=
  wallCollisions localVertices (integrate ball).

(** *** 4. Ball-to-ball collisions (lines 125-209) *)

(** A key of the grid.  The source builds the string [`${cellX},${cellY}`]
    and reads the two integers back with [key.split(',').map(Number)]; the
    key is modelled as the pair of integers that the string encodes. *)
Definition CellKey : Type := (Z * Z)%type.

(** [Map<string, Ball[]>]: the entries in insertion order, which is the
    order [grid.entries()] yields them in; a bucket lists references to
    balls in the order they were pushed. *)
Definition Grid : Type := list (CellKey * list nat).

(** [grid.get(key)]. *)
Fixpoint grid_get (key : CellKey) (grid : Grid) : option (list nat) :=
  match grid with
  | [] => None
  | (k, bucket) :: rest =>
      if decide (k = key) then Some bucket else grid_get key rest
  end.

(** [if (!grid.has(key)) grid.set(key, []); grid.get(key)!.push(ball)]. *)
Fixpoint grid_push (key : CellKey) (i : nat) (grid : Grid) : Grid :=
  match grid with
  | [] => [(key, [i])]
  | (k, bucket) :: rest =>
      if decide (k = key) then (k, bucket ++ [i]) :: rest
      else (k, bucket) :: grid_push key i rest
  end.

(** [const cellSize = config.ballSize * 2.5]. *)
Definition cellSize : R := ballSize config * 2.5.

(** The cell of a position (lines 134-135). *)
Definition cellOf (worldBounds : R) (p : Vector2) : CellKey :=
  (Zfloor ((x p + worldBounds) / cellSize),
   Zfloor ((y p + worldBounds) / cellSize)).

(** Populate the grid with balls (lines 133-141). *)
Definition buildGrid (worldBounds : R) (balls : list Ball) : Grid :=
  foldl
    (fun grid '(i, ball) => grid_push (cellOf worldBounds (pos ball)) i grid)
    [] (zip (seq 0 (length balls)) balls).

(** The unique key of a pair (line 161); [<] on strings is the
    lexicographic order. *)
Definition pairKey (idA idB : string) : string :=
  if String.ltb idA idB then idA +:+ "|" +:+ idB else idB +:+ "|" +:+ idA.

(** The collision logic for one pair (lines 167-202): the two balls after
    it.  [ballA] and [ballB] are distinct objects here, their ids differ. *)
Definition collide (ballA ballB : Ball) : Ball * Ball :=
  let distVec := sub (pos ballB) (pos ballA) in
  let distance := mag distVec in
  let totalRadius := radius ballA + radius ballB in
  if Rlt_dec distance totalRadius then
    (* Position correction *)
    let overlap := totalRadius - distance in
    let correctionNormal :=
      if Req_dec_T distance 0 then {| x := 1; y := 0 |}
      else normalize epsilon distVec in
    let correctionA := mult correctionNormal ((- overlap) / 2) in
    let correctionB := mult correctionNormal (overlap / 2) in
    let ballA := set_pos ballA (add (pos ballA) correctionA) in
    let ballB := set_pos ballB (add (pos ballB) correctionB) in
    (* Velocity update *)
    let collisionNormal := normalize epsilon distVec in
    let relativeVelocity := sub (vel ballB) (vel ballA) in
    let speedAlongNormal := dot relativeVelocity collisionNormal in
    if Rlt_dec speedAlongNormal 0 then
      let v1n_scalar := dot (vel ballA) collisionNormal in
      let v2n_scalar := dot (vel ballB) collisionNormal in
      let v1n_vec := mult collisionNormal v1n_scalar in
      let v2n_vec := mult collisionNormal v2n_scalar in
      let v1t_vec := sub (vel ballA) v1n_vec in
      let v2t_vec := sub (vel ballB) v2n_vec in
      (set_vel ballA (add v1t_vec v2n_vec), set_vel ballB (add v2t_vec v1n_vec))
    else (ballA, ballB)
  else (ballA, ballB).

(** The state of the pair loops: the store of balls, the set
    [checkedPairs], and a ghost log [tested] of the pairs of references for
    which the collision logic (lines 166-203) was run, in order. *)
Record PairPhase : Type := mkPairPhase {
  store : list Ball;
  checkedPairs : gset string;
  tested : list (nat * nat)
}.

(** The body of the two innermost loops (lines 158-203) for the references
    [iA] and [iB]. *)
Definition checkPair (s : PairPhase) (iA iB : nat) : PairPhase :=
  match store s !! iA, store s !! iB with
  | Some ballA, Some ballB =>
      if decide (id ballA = id ballB) then s
      else
        let pairKey := pairKey (id ballA) (id ballB) in
        if decide (pairKey ∈ checkedPairs s) then s
        else
          let '(ballA', ballB') := collide ballA ballB in
          {| store := <[iB := ballB']> (<[iA := ballA']> (store s));
             checkedPairs := {[ pairKey ]} ∪ checkedPairs s;
             tested := tested s ++ [(iA, iB)] |}
  | _, _ => s
  end.

(** [for (const ballA of cellBalls) for (const ballB of neighborBalls)]. *)
Definition checkBuckets (cellBalls neighborBalls : list nat) (s : PairPhase)
  : PairPhase :=
  foldl (fun s iA => foldl (fun s iB => checkPair s iA iB) s neighborBalls)
        s cellBalls.

(** [dx] and [dy] run over [-1, 0, 1]. *)
Definition offsets : list Z := [-1; 0; 1]%Z.

(** One entry of the grid: the cell and its eight neighbours (lines
    146-207). *)
Definition checkCell (grid : Grid) (s : PairPhase)
    (entry : CellKey * list nat) : PairPhase :=
  let '((cellX, cellY), cellBalls) := entry in
  foldl
    (fun s dx =>
       foldl
         (fun s dy =>
            match grid_get ((cellX + dx)%Z, (cellY + dy)%Z) grid with
            | None => s
            | Some neighborBalls => checkBuckets cellBalls neighborBalls s
            end)
         s offsets)
    s offsets.

(** [for (const [key, cellBalls] of grid.entries())]. *)
Definition checkGrid (grid : Grid) (s : PairPhase) : PairPhase :=
  foldl (checkCell grid) s grid.

(** Step 4 on the store [balls], for [balls.length > 1]. *)
Definition ballCollisions (shapeRadius : R) (balls : list Ball) : PairPhase :=
  let worldBounds := shapeRadius * 1.1 in
  let grid := buildGrid worldBounds balls in
  checkGrid grid {| store := balls; checkedPairs := ∅; tested := [] |}.

(** *** Final check: the hard limit (lines 212-218) *)

Definition hardLimit (shapeRadius : R) (ball : Ball) : Ball :=
  if Rgt_dec (mag (pos ball)) (shapeRadius + 50) then
    set_vel (set_pos ball {| x := 0; y := 0 |}) {| x := 0; y := 0 |}
  else ball.

(** *** [updatePhysics] (lines 54-219) *)

(** [config.vertexCount || d]. *)
Definition vertexCountOr (d : nat) : nat :=
  match vertexCount config with O => d | n => n end.

(** The local vertices of the shape at a rotation (lines 65-70). *)
Definition shapeVertices (shapeRadius rotation : R) : list Vector2 :=
  match shapeType config with
  | star =>
      generateStar (vertexCountOr 5) shapeRadius (shapeRadius * 0.4)
        {| x := 0; y := 0 |} rotation
  | polygon =>
      generatePolygon (vertexCountOr 4) shapeRadius {| x := 0; y := 0 |}
        rotation
  end.

Definition updatePhysics (width height : R) (state : State) : State :=
  let shapeRadius := Rmin width height * 0.45 in
  (* 1. Update rotation *)
  let rotation :=
    rotation state
    + rotationSpeed config * rotationMultiplier globalSettings
      * timeScale globalSettings in
  (* 2. Generate shape vertices *)
  let localVertices := shapeVertices shapeRadius rotation in
  (* 3. Update balls *)
  let balls := map (updateBall localVertices) (balls state) in
  (* 4. Ball-to-ball collisions *)
  let balls :=
    if (1 <? length balls)%nat then store (ballCollisions shapeRadius balls)
    else balls in
  (* Final check *)
  let balls := map (hardLimit shapeRadius) balls in
  {| balls := balls; rotation := rotation |}.

End Simulation.

(** ** The integrator as the specification words it (spec 4.3)

    The four updates of the specification, one definition each, to compare
    with [integrate]. *)

(** 1. [velocity.y += gravity * gravityMultiplier * timeScale]. *)
Definition applyGravity (config : SimulationConfig) (gs : GlobalSettings)
    (ball : Ball) : Ball :=
  set_vel ball
    {| x := x (vel ball);
       y := y (vel ball) + gravity config * gravityMultiplier gs * timeScale gs |}.

(** 2. [velocity *= (1 - friction * timeScale)]. *)
Definition applyFriction (config : SimulationConfig) (gs : GlobalSettings)
    (ball : Ball) : Ball :=
  set_vel ball (mult (vel ball) (1 - friction config * timeScale gs)).

(** 3. If [|velocity| > 0.001], the drag acceleration is
    [-k * |velocity| * velocity] with [k = 0.003], and
    [velocity += dragAcceleration * timeScale]. *)
Definition applyDrag (gs : GlobalSettings) (ball : Ball) : Ball :=
  if Rgt_dec (mag (vel ball)) 0.001 then
    set_vel ball
      (add (vel ball)
           (mult (mult (vel ball) (- 0.003 * mag (vel ball))) (timeScale gs)))
  else ball.

(** 4. [position += velocity * timeScale]. *)
Definition integratePosition (gs : GlobalSettings) (ball : Ball) : Ball :=
  set_pos ball (add (pos ball) (mult (vel ball) (timeScale gs))).

(** ** The pair resolver as the specification words it (spec 4.6)

    Steps 1 to 5 of the specification, to compare with [collide]: one
    [normal], the fixed axis [(1, 0)] when the distance is zero, serves the
    position correction and the velocity resolution alike. *)
Definition collideSpec (epsilon : R) (ballA ballB : Ball) : Ball * Ball :=
  (* 1. delta, distance, overlap *)
  let delta := sub (pos ballB) (pos ballA) in
  let distance := mag delta in
  let overlap := (radius ballA + radius ballB) - distance in
  (* 2. no collision *)
  if Rle_dec overlap 0 then (ballA, ballB)
  else
    (* 3. the normal *)
    let normal :=
      if Req_dec_T distance 0 then {| x := 1; y := 0 |}
      else normalize epsilon delta in
    (* 4. position correction *)
    let movedA :=
      set_pos ballA (add (pos ballA) (mult (mult normal (-1)) (overlap / 2))) in
    let movedB :=
      set_pos ballB (add (pos ballB) (mult normal (overlap / 2))) in
    (* 5. velocity resolution, only if the bodies approach *)
    if Rlt_dec (dot (sub (vel ballB) (vel ballA)) normal) 0 then
      let normalA := mult normal (dot (vel ballA) normal) in
      let normalB := mult normal (dot (vel ballB) normal) in
      let tangentialA := sub (vel ballA) normalA in
      let tangentialB := sub (vel ballB) normalB in
      (set_vel movedA (add tangentialA normalB),
       set_vel movedB (add tangentialB normalA))
    else (movedA, movedB).

(** ** Ticks *)

(** [n] calls of [updatePhysics] on a canvas of a fixed size. *)
Fixpoint run (epsilon : R) (config : SimulationConfig) (gs : GlobalSettings)
    (width height : R) (n : nat) (state : State) : State :=
  match n with
  | O => state
  | S n =>
      run epsilon config gs width height n
        (updatePhysics epsilon config gs width height state)
  end.

(** The ball penetrates no edge of the loop: the test [dist < ball.radius]
    of line 108 fails at every edge. *)
Definition clearOfWalls (epsilon : R) (localVertices : list Vector2)
    (ball : Ball) : Prop :=
  forall i : nat, (i < length localVertices)%nat ->
    let p1 := nth i localVertices zero in
    let p2 := nth ((i + 1) mod length localVertices) localVertices zero in
    radius ball <= dot (sub (pos ball) p1) (edgeNormal epsilon p1 p2).

(** No two balls overlap: the test [distance < totalRadius] of line 171
    fails for every two of them. *)
Definition clearOfBalls (balls : list Ball) : Prop :=
  forall (i j : nat) (a b : Ball), i <> j ->
    balls !! i = Some a -> balls !! j = Some b ->
    radius a + radius b <= mag (sub (pos b) (pos a)).

(** The ball is within the hard limit of the final check (line 214). *)
Definition withinLimit (shapeRadius : R) (ball : Ball) : Prop :=
  mag (pos ball) <= shapeRadius + 50.

(** A tick without collision: once the forces have moved the balls, none
    penetrates an edge of the shape, no two overlap, and none is beyond the
    hard limit. *)
Definition noCollision (epsilon : R) (config : SimulationConfig)
    (gs : GlobalSettings) (width height : R) (state : State) : Prop :=
  let shapeRadius := Rmin width height * 0.45 in
  let rotation :=
    rotation state + rotationSpeed config * rotationMultiplier gs * timeScale gs in
  let moved := map (integrate config gs) (balls state) in
  Forall (clearOfWalls epsilon (shapeVertices config shapeRadius rotation)) moved
  /\ clearOfBalls moved
  /\ Forall (withinLimit shapeRadius) moved.

(** ** Quantities of the testable properties (spec 8) *)

(** Total momentum and total kinetic energy of two bodies of unit mass. *)
Definition momentum (ballA ballB : Ball) : Vector2 :=
  add (vel ballA) (vel ballB).

Definition kineticEnergy (ballA ballB : Ball) : R :=
  dot (vel ballA) (vel ballA) / 2 + dot (vel ballB) (vel ballB) / 2.

(** The fields of a body that a tick is to leave alone. *)
Definition sameIdentity (ball ball' : Ball) : Prop :=
  id ball' = id ball /\ radius ball' = radius ball /\ color ball' = color ball.

(** The balls as steps 1 to 4 of [updatePhysics] leave them (lines 54-209),
    before the final check. *)
Definition ballsBeforeFinalCheck (epsilon : R) (config : SimulationConfig)
    (gs : GlobalSettings) (width height : R) (state : State) : list Ball :=
  let shapeRadius := Rmin width height * 0.45 in
  let rotation :=
    rotation state + rotationSpeed config * rotationMultiplier gs * timeScale gs in
  let localVertices := shapeVertices config shapeRadius rotation in
  let balls := map (updateBall epsilon config gs localVertices) (balls state) in
  if (1 <? length balls)%nat
  then store (ballCollisions epsilon config shapeRadius balls)
  else balls.

(** ** The pair loops in terms of references *)

(** The pairs of references [(ballA, ballB)] that the loops of lines
    145-157 visit, in the order they visit them.  The grid is not written
    to while the loops run, so the pairs do not depend on what the
    collisions do to the balls. *)
Definition candidates (grid : Grid) : list (nat * nat) :=
  entry ← grid;
  dx ← offsets;
  dy ← offsets;
  match grid_get ((entry.1.1 + dx)%Z, (entry.1.2 + dy)%Z) grid with
  | None => []
  | Some neighborBalls => iA ← entry.2; iB ← neighborBalls; [(iA, iB)]
  end.

(** The pair key of two references into [balls]. *)
Definition keyOf (balls : list Ball) (p : nat * nat) : option string :=
  match balls !! p.1, balls !! p.2 with
  | Some ballA, Some ballB => Some (pairKey (id ballA) (id ballB))
  | _, _ => None
  end.

(** What the pair loops keep, for the balls [balls0] they start from: the
    balls keep their ids, the keys of the logged pairs are in
    [checkedPairs] and differ from one another, and every key in
    [checkedPairs] is the key of a logged pair. *)
Definition pairInv (balls0 : list Ball) (s : PairPhase) : Prop :=
  Forall2 sameIdentity balls0 (store s)
  /\ (forall p, p ∈ tested s ->
        exists k, keyOf balls0 p = Some k /\ k ∈ checkedPairs s)
  /\ NoDup (keyOf balls0 <$> tested s)
  /\ (forall k, k ∈ checkedPairs s ->
        exists p, p ∈ tested s /\ keyOf balls0 p = Some k).

(** The bucket of the cell [key] holds the reference [i]. *)
Definition covers (grid : Grid) (i : nat) (key : CellKey) : Prop :=
  exists bucket, grid_get key grid = Some bucket /\ i ∈ bucket.

(** The id has no character ['|']. *)
Fixpoint barFree (s : string) : bool :=
  match s with
  | EmptyString => true
  | String c s' => negb (Ascii.eqb c "|"%char) && barFree s'
  end.

(** The decimal numeral of an index, as a template string prints it. *)
Definition decimal (i : nat) : string :=
  NilEmpty.string_of_uint (Nat.to_uint i).

(** [`${config.id}-${i}`], the id of the [i]-th ball (line 40). *)
Definition ballId (configId : string) (i : nat) : string :=
  configId +:+ "-" +:+ decimal i.

(** The balls have the ids that the initialisation of lines 28-52 gives
    them. *)
Definition createdBy (configId : string) (balls : list Ball) : Prop :=
  forall (i : nat) (ball : Ball),
    balls !! i = Some ball -> id ball = ballId configId i.

(** Pair keys tell the pairs of ids of [balls] apart.  Ids without the
    separator ['|'] do (lemma [barFree_keysSeparate]), and so do the ids
    of line 40, whatever [config.id] is (lemma [createdBy_ids]). *)
Definition keysSeparate (balls : list Ball) : Prop :=
  forall a b c d : string,
    a ∈ id <$> balls -> b ∈ id <$> balls ->
    c ∈ id <$> balls -> d ∈ id <$> balls ->
    pairKey a b = pairKey c d -> (a = c /\ b = d) \/ (a = d /\ b = c).

(** ** Initialisation (lines 27-52) *)

(** Modelled from the spec: the fields [id], [ballCount] and [initialSpeed]
    of [SimulationConfig] (src/types), which only the initialisation
    reads. *)
Record Seed : Type := mkSeed {
  configId : string;
  ballCount : R;
  initialSpeed : R
}.

(** [const count = Math.floor(config.ballCount * 1)], as the number of
    rounds of [for (let i = 0; i < count; i++)]: none when [count] is
    negative. *)
Definition ballTotal (seed : Seed) : nat :=
  Z.to_nat (Zfloor (ballCount seed * 1)).

(** The ball that round [i] of the loop pushes (lines 34-45).  The calls of
    [Math.random()] are the stream [random]: round [i] takes its four
    numbers in the order of the calls, for [angle], [dist], [speed] and
    [velAngle]. *)
Definition createBall (seed : Seed) (config : SimulationConfig)
    (random : nat -> R) (i : nat) : Ball :=
  let angle := random (4 * i)%nat * PI * 2 in
  let dist := random (4 * i + 1)%nat * 30 in
  let speed := initialSpeed seed * (0.5 + random (4 * i + 2)%nat) in
  let velAngle := random (4 * i + 3)%nat * PI * 2 in
  {| id := ballId (configId seed) i;
     pos := {| x := 0 + cos angle * dist; y := 0 + sin angle * dist |};
     vel := {| x := cos velAngle * speed; y := sin velAngle * speed |};
     radius := ballSize config;
     color := "#FACC15" |}.

(** The state that the effect stores in [stateRef.current] (lines 29-51). *)
Definition initSimulation (seed : Seed) (config : SimulationConfig)
    (random : nat -> R) : State :=
  {| balls := map (createBall seed config random) (seq 0 (ballTotal seed));
     rotation := 0 |}.

(** The unordered pairs of references below [n], smaller reference
    first. *)
Definition allPairs (n : nat) : list (nat * nat) :=
  i ← seq 0 n; j ← seq (S i) (n - S i); [(i, j)].

(** A pair of references with the smaller one first. *)
Definition sortedPair (p : nat * nat) : nat * nat :=
  (Nat.min p.1 p.2, Nat.max p.1 p.2).

(** The sum of a quantity over the balls. *)
Definition sumOver (f : Ball -> R) (balls : list Ball) : R :=
  foldr (fun ball acc => f ball + acc) 0 balls.

(** ** Vectors *)

Lemma Vector2_eq (a b : Vector2) : x a = x b -> y a = y b -> a = b.
Proof. destruct a, b; simpl; intros -> ->; reflexivity. Qed.

(** Decide the comparisons of a goal or hypothesis by linear arithmetic. *)
Ltac decide_R :=
  repeat match goal with
    | |- context [Rlt_dec ?a ?b] => destruct (Rlt_dec a b); try lra
    | |- context [Rgt_dec ?a ?b] => destruct (Rgt_dec a b); try lra
    | |- context [Rle_dec ?a ?b] => destruct (Rle_dec a b); try lra
    | |- context [Req_dec_T ?a ?b] => destruct (Req_dec_T a b); try lra
    end.

Lemma mag_nonneg (v : Vector2) : 0 <= mag v.
Proof. apply sqrt_pos. Qed.

Lemma mag_sqr (v : Vector2) : mag v * mag v = dot v v.
Proof. unfold mag, dot. apply sqrt_sqrt. nra. Qed.

Lemma mag_zero : mag zero = 0.
Proof.
  unfold mag, zero; simpl. replace (0 * 0 + 0 * 0) with 0 by lra.
  apply sqrt_0.
Qed.

(** The magnitude of a vector along the first axis. *)
Lemma mag_along_x (a : R) : mag {| x := a; y := 0 |} = Rabs a.
Proof.
  unfold mag; simpl. replace (a * a + 0 * 0) with (Rsqr a) by (unfold Rsqr; lra).
  apply sqrt_Rsqr_abs.
Qed.

Lemma mag_along_y (a : R) : mag {| x := 0; y := a |} = Rabs a.
Proof.
  unfold mag; simpl. replace (0 * 0 + a * a) with (Rsqr a) by (unfold Rsqr; lra).
  apply sqrt_Rsqr_abs.
Qed.

Lemma normalize_small (epsilon : R) (v : Vector2) :
  mag v <= epsilon -> normalize epsilon v = zero.
Proof. intros H. unfold normalize. decide_R. reflexivity. Qed.

Lemma normalize_large (epsilon : R) (v : Vector2) :
  epsilon < mag v -> normalize epsilon v = {| x := x v / mag v; y := y v / mag v |}.
Proof. intros H. unfold normalize. decide_R. reflexivity. Qed.

(** Above the threshold the result of [normalize] is a unit vector. *)
Lemma normalize_unit (epsilon : R) (v : Vector2) :
  0 <= epsilon -> epsilon < mag v ->
  dot (normalize epsilon v) (normalize epsilon v) = 1.
Proof.
  intros H0 H. rewrite normalize_large by assumption. unfold dot; simpl.
  pose proof (mag_sqr v) as Hs. unfold dot in Hs.
  assert (Hm : mag v <> 0) by lra.
  replace (x v / mag v * (x v / mag v) + y v / mag v * (y v / mag v))
    with ((x v * x v + y v * y v) / (mag v * mag v)) by (field; assumption).
  rewrite <- Hs. field. assumption.
Qed.

(** A quarter turn keeps the magnitude. *)
Lemma mag_perp (v : Vector2) : mag {| x := - y v; y := x v |} = mag v.
Proof. unfold mag; simpl. f_equal. lra. Qed.

(** The edge normal is a unit vector when the edge is longer than the
    threshold of [normalize]. *)
Lemma edgeNormal_unit (epsilon : R) (p1 p2 : Vector2) :
  0 <= epsilon -> epsilon < mag (sub p2 p1) ->
  dot (edgeNormal epsilon p1 p2) (edgeNormal epsilon p1 p2) = 1.
Proof.
  intros H0 H. unfold edgeNormal.
  set (n := normalize epsilon _).
  assert (Hn : dot n n = 1).
  { apply normalize_unit; [assumption |]. rewrite mag_perp. assumption. }
  destruct (Rlt_dec _ _); [| assumption].
  unfold dot in *; simpl. lra.
Qed.

(** ** The integrator (spec 4.3) *)

(** The position moves by the velocity that the forces have produced. *)
Lemma integrate_pos (config : SimulationConfig) (gs : GlobalSettings)
    (ball : Ball) :
  pos (integrate config gs ball)
  = add (pos ball) (mult (vel (integrate config gs ball)) (timeScale gs)).
Proof.
  unfold integrate. cbn [vel pos set_vel set_pos].
  destruct (Rgt_dec _ _); reflexivity.
Qed.

(** C9.  The integrator applies its updates in the fixed order gravity,
    linear friction, quadratic drag, position: [integrate] is the
    composition of the four updates of the specification in that order, and
    the position moves by the velocity that already includes this tick's
    forces (semi-implicit Euler). *)
Theorem integrate_order (config : SimulationConfig) (gs : GlobalSettings)
    (ball : Ball) :
  integrate config gs ball
  = integratePosition gs
      (applyDrag gs (applyFriction config gs (applyGravity config gs ball)))
  /\ pos (integrate config gs ball)
     = add (pos ball) (mult (vel (integrate config gs ball)) (timeScale gs)).
Proof.
  split; [| apply integrate_pos].
  unfold integrate, integratePosition, applyDrag, applyFriction, applyGravity.
  cbn [vel pos set_vel set_pos].
  destruct (Rgt_dec _ _); cbn [vel pos set_vel set_pos]; [| reflexivity].
  replace (-0.003) with (- (0.003)) by lra. reflexivity.
Qed.

(** ** The boundary resolver (spec 4.4) *)

(** An edge that the ball is clear of leaves the ball as it is. *)
Lemma resolveEdge_clear (epsilon : R) (config : SimulationConfig)
    (gs : GlobalSettings) (p1 p2 : Vector2) (ball : Ball) :
  radius ball <= dot (sub (pos ball) p1) (edgeNormal epsilon p1 p2) ->
  resolveEdge epsilon config gs p1 p2 ball = ball.
Proof.
  intros Hd. unfold resolveEdge.
  destruct (Rlt_dec _ _); [lra | reflexivity].
Qed.

(** The velocity of a ball that has penetrated an edge and moves into it. *)
Lemma resolveEdge_bounce (epsilon : R) (config : SimulationConfig)
    (gs : GlobalSettings) (p1 p2 : Vector2) (ball : Ball) :
  let n := edgeNormal epsilon p1 p2 in
  dot (sub (pos ball) p1) n < radius ball ->
  dot (vel ball) n < 0 ->
  vel (resolveEdge epsilon config gs p1 p2 ball)
  = add (mult (sub (vel ball) (mult n (2 * dot (vel ball) n)))
              (restitution config * bouncinessMultiplier gs))
        (mult n 0.1).
Proof.
  intros n Hd Hv. unfold resolveEdge. fold n.
  destruct (Rlt_dec _ _); [| lra]. cbn [vel pos set_vel set_pos].
  destruct (Rlt_dec _ _); [| lra]. cbn [vel pos set_vel set_pos].
  unfold wallRestitution. apply Vector2_eq; simpl; lra.
Qed.

(** C4.  For an edge with inward normal [n] and signed distance [d] of the
    body along [n]: when [d < radius] the position is pushed out by
    [radius - d] along [n], and the velocity changes only when
    [dot(velocity, n) < 0], to the reflection about [n] scaled by
    [restitution * bouncinessMultiplier] plus [n * 0.1]; when [d >= radius]
    the body is unchanged. *)
Theorem resolveEdge_cases (epsilon : R) (config : SimulationConfig)
    (gs : GlobalSettings) (p1 p2 : Vector2) (ball : Ball) :
  let n := edgeNormal epsilon p1 p2 in
  let d := dot (sub (pos ball) p1) n in
  let ball' := resolveEdge epsilon config gs p1 p2 ball in
  (d < radius ball ->
     pos ball' = add (pos ball) (mult n (radius ball - d))
     /\ (dot (vel ball) n < 0 ->
           vel ball'
           = add (mult (sub (vel ball) (mult n (2 * dot (vel ball) n)))
                       (restitution config * bouncinessMultiplier gs))
                 (mult n 0.1))
     /\ (~ dot (vel ball) n < 0 -> vel ball' = vel ball))
  /\ (radius ball <= d -> ball' = ball).
Proof.
  intros n d ball'. subst ball'. unfold resolveEdge.
  fold n. fold d. cbn [vel pos set_vel set_pos radius].
  split.
  - intros Hd. destruct (Rlt_dec d (radius ball)); [| lra].
    destruct (Rlt_dec (dot (vel ball) n) 0) as [Hv | Hv];
      cbn [vel pos set_vel set_pos]; repeat split; try reflexivity;
      try (intros; contradiction).
    intros _. unfold wallRestitution. apply Vector2_eq; simpl; lra.
  - intros Hd. destruct (Rlt_dec d (radius ball)); [lra | reflexivity].
Qed.

(** The inward normal of a vertical edge to the right of the origin,
    running upwards, points to the left. *)
Lemma edgeNormal_vertical (epsilon a b1 b2 : R) :
  0 <= epsilon -> epsilon < b2 - b1 -> 0 <= a ->
  edgeNormal epsilon {| x := a; y := b1 |} {| x := a; y := b2 |}
  = {| x := -1; y := 0 |}.
Proof.
  intros H0 Hb Ha. unfold edgeNormal, sub. simpl.
  replace {| x := - (b2 - b1); y := a - a |}
    with {| x := - (b2 - b1); y := 0 |} by (f_equal; lra).
  assert (Hm : mag {| x := - (b2 - b1); y := 0 |} = b2 - b1).
  { rewrite mag_along_x, Rabs_Ropp. apply Rabs_right. lra. }
  rewrite normalize_large by (rewrite Hm; lra). rewrite Hm. simpl.
  replace (- (b2 - b1) / (b2 - b1)) with (-1) by (field; lra).
  replace (0 / (b2 - b1)) with 0 by (field; lra).
  unfold dot, mult; simpl.
  destruct (Rlt_dec _ _); [lra | reflexivity].
Qed.

(** The two components of a reflected, scaled and nudged velocity, for a
    unit normal [(nx, ny)]. *)
Lemma bounce_normal (vx vy nx ny e k : R) :
  nx * nx + ny * ny = 1 ->
  ((vx - nx * (2 * (vx * nx + vy * ny))) * e + nx * k) * nx
  + ((vy - ny * (2 * (vx * nx + vy * ny))) * e + ny * k) * ny
  = - e * (vx * nx + vy * ny) + k.
Proof.
  intros H.
  transitivity (e * (vx * nx + vy * ny) * (1 - 2 * (nx * nx + ny * ny))
                + k * (nx * nx + ny * ny)); [ring |].
  rewrite H. ring.
Qed.

Lemma bounce_tangential (vx vy nx ny e k : R) :
  ((vx - nx * (2 * (vx * nx + vy * ny))) * e + nx * k) * - ny
  + ((vy - ny * (2 * (vx * nx + vy * ny))) * e + ny * k) * nx
  = e * (vx * - ny + vy * nx).
Proof. ring. Qed.

(** C2, as amended.  In a boundary collision where the body moves into the
    wall, the whole reflected velocity is scaled by
    [restitution * bouncinessMultiplier]: the tangential component is
    multiplied by that factor, and the normal component becomes the old one
    times minus that factor, plus the nudge [0.1]. *)
Theorem wall_bounce_scales_both_components (epsilon : R)
    (config : SimulationConfig) (gs : GlobalSettings) (p1 p2 : Vector2)
    (ball : Ball) :
  let n := edgeNormal epsilon p1 p2 in
  let t := {| x := - y n; y := x n |} in
  let e := restitution config * bouncinessMultiplier gs in
  let ball' := resolveEdge epsilon config gs p1 p2 ball in
  0 <= epsilon -> epsilon < mag (sub p2 p1) ->
  dot (sub (pos ball) p1) n < radius ball ->
  dot (vel ball) n < 0 ->
  dot (vel ball') n = - e * dot (vel ball) n + 0.1
  /\ dot (vel ball') t = e * dot (vel ball) t.
Proof.
  intros n t e ball' H0 Hedge Hd Hv.
  pose proof (resolveEdge_bounce epsilon config gs p1 p2 ball Hd Hv) as Hvel.
  fold n in Hvel. fold ball' in Hvel. rewrite Hvel.
  pose proof (edgeNormal_unit epsilon p1 p2 H0 Hedge) as Hn. fold n in Hn.
  subst t e. unfold dot in *; simpl.
  split; [apply bounce_normal; assumption | apply bounce_tangential].
Qed.

(** A wall at [x = 1], a ball of radius [0.5] at [(0.9, 0)] moving with
    velocity [(1, 1)], restitution [0.5]. *)
Lemma wall_bounce_scales_both_components_witness :
  let config := mkConfig 0 0 0.5 1 0 polygon 4 in
  let gs := mkSettings 1 1 1 1 in
  let p1 := {| x := 1; y := -1 |} in
  let p2 := {| x := 1; y := 1 |} in
  let ball := mkBall "b-0" {| x := 0.9; y := 0 |} {| x := 1; y := 1 |} 0.5 "#FACC15" in
  let n := edgeNormal 0 p1 p2 in
  let t := {| x := - y n; y := x n |} in
  let ball' := resolveEdge 0 config gs p1 p2 ball in
  dot (vel ball') n = - (0.5 * 1) * dot (vel ball) n + 0.1
  /\ dot (vel ball') t = 0.5 * 1 * dot (vel ball) t.
Proof.
  intros config gs p1 p2 ball n t ball'.
  assert (Hn : n = {| x := -1; y := 0 |})
    by (apply edgeNormal_vertical; lra).
  apply (wall_bounce_scales_both_components 0 config gs p1 p2 ball).
  - lra.
  - unfold p1, p2, sub; simpl.
    replace {| x := 1 - 1; y := 1 - -1 |} with {| x := 0; y := 2 |}
      by (f_equal; lra).
    rewrite mag_along_y, Rabs_right; lra.
  - fold n. rewrite Hn. unfold dot; simpl. lra.
  - fold n. rewrite Hn. unfold dot; simpl. lra.
Defined.

(** C2 as stated fails: at the wall [x = 1] with restitution [0.5], the
    velocity [(1, 1)] of a penetrating ball that moves into the wall becomes
    [(-0.6, 0.5)]: the tangential component is halved, not retained. *)
Lemma wall_bounce_tangential_not_retained :
  let config := mkConfig 0 0 0.5 1 0 polygon 4 in
  let gs := mkSettings 1 1 1 1 in
  let p1 := {| x := 1; y := -1 |} in
  let p2 := {| x := 1; y := 1 |} in
  let ball := mkBall "b-0" {| x := 0.9; y := 0 |} {| x := 1; y := 1 |} 0.5 "#FACC15" in
  let n := edgeNormal 0 p1 p2 in
  let t := {| x := - y n; y := x n |} in
  let ball' := resolveEdge 0 config gs p1 p2 ball in
  dot (sub (pos ball) p1) n < radius ball
  /\ dot (vel ball) n < 0
  /\ vel ball' = {| x := -0.6; y := 0.5 |}
  /\ dot (vel ball') t <> dot (vel ball) t.
Proof.
  intros config gs p1 p2 ball n t ball'.
  assert (Hn : n = {| x := -1; y := 0 |})
    by (apply edgeNormal_vertical; lra).
  assert (Hd : dot (sub (pos ball) p1) n < radius ball)
    by (rewrite Hn; unfold dot; simpl; lra).
  assert (Hv : dot (vel ball) n < 0)
    by (rewrite Hn; unfold dot; simpl; lra).
  pose proof (resolveEdge_bounce 0 config gs p1 p2 ball Hd Hv) as Hvel.
  fold n in Hvel. fold ball' in Hvel.
  assert (Hvel' : vel ball' = {| x := -0.6; y := 0.5 |}).
  { rewrite Hvel, Hn. apply Vector2_eq; unfold dot; simpl; lra. }
  repeat split; try assumption.
  subst t. rewrite Hvel', Hn. unfold dot; simpl. lra.
Qed.

(** ** Invariants of the loops *)

Lemma foldl_invariant {A B : Type} (P : A -> Prop) (f : A -> B -> A)
    (l : list B) (a : A) :
  (forall a b, P a -> P (f a b)) -> P a -> P (foldl f a l).
Proof.
  intros Hf. revert a. induction l as [| b l IH]; intros a Ha; simpl.
  - assumption.
  - apply IH, Hf, Ha.
Qed.

(** What every call of [checkPair] keeps, the pair loops keep. *)
Lemma checkGrid_invariant (epsilon : R) (P : PairPhase -> Prop) (grid : Grid)
    (s : PairPhase) :
  (forall s iA iB, P s -> P (checkPair epsilon s iA iB)) ->
  P s -> P (checkGrid epsilon grid s).
Proof.
  intros Hstep. unfold checkGrid. generalize grid at 1. intros g.
  apply foldl_invariant. clear s.
  intros s [[cellX cellY] cellBalls] Hs. unfold checkCell.
  apply foldl_invariant; [| assumption]. clear s Hs. intros s dx Hs.
  apply foldl_invariant; [| assumption]. clear s Hs. intros s dy Hs.
  destruct (grid_get _ _) as [neighborBalls |]; [| assumption].
  unfold checkBuckets.
  apply foldl_invariant; [| assumption]. clear s Hs. intros s iA Hs.
  apply foldl_invariant; [| assumption]. clear s Hs. intros s iB Hs.
  apply Hstep, Hs.
Qed.

(** *** Ticks without collision *)

Lemma wallCollisions_clear (epsilon : R) (config : SimulationConfig)
    (gs : GlobalSettings) (localVertices : list Vector2) (ball : Ball) :
  clearOfWalls epsilon localVertices ball ->
  wallCollisions epsilon config gs localVertices ball = ball.
Proof.
  intros Hclear. unfold wallCollisions.
  assert (Hin : forall i, i ∈ seq 0 (length localVertices) ->
                          (i < length localVertices)%nat).
  { intros i Hi. apply elem_of_seq in Hi. lia. }
  revert Hin. generalize (seq 0 (length localVertices)) as l.
  induction l as [| i l IH]; intros Hin; simpl; [reflexivity |].
  assert (Hi : (i < length localVertices)%nat) by (apply Hin; left).
  rewrite resolveEdge_clear by (apply Hclear, Hi).
  apply IH. intros k Hk. apply Hin. right. assumption.
Qed.

Lemma collide_clear (epsilon : R) (ballA ballB : Ball) :
  radius ballA + radius ballB <= mag (sub (pos ballB) (pos ballA)) ->
  collide epsilon ballA ballB = (ballA, ballB).
Proof. intros H. unfold collide. decide_R. reflexivity. Qed.

Lemma checkPair_clear (epsilon : R) (balls : list Ball) (s : PairPhase)
    (iA iB : nat) :
  clearOfBalls balls -> store s = balls ->
  store (checkPair epsilon s iA iB) = balls.
Proof.
  intros Hclear Hs. unfold checkPair.
  destruct (store s !! iA) as [ballA |] eqn:HA; [| assumption].
  destruct (store s !! iB) as [ballB |] eqn:HB; [| assumption].
  destruct (decide (id ballA = id ballB)) as [| Hid]; [assumption |].
  destruct (decide (_ ∈ _)); [assumption |].
  rewrite collide_clear.
  - simpl. rewrite (list_insert_id _ iA) by assumption.
    rewrite list_insert_id by assumption. assumption.
  - rewrite Hs in HA, HB. apply (Hclear iA iB); try assumption.
    intros ->. rewrite HA in HB. congruence.
Qed.

Lemma ballCollisions_clear (epsilon : R) (config : SimulationConfig)
    (shapeRadius : R) (balls : list Ball) :
  clearOfBalls balls ->
  store (ballCollisions epsilon config shapeRadius balls) = balls.
Proof.
  intros Hclear. unfold ballCollisions.
  apply (checkGrid_invariant epsilon (fun s => store s = balls)).
  - intros s iA iB. apply checkPair_clear, Hclear.
  - reflexivity.
Qed.

Lemma hardLimit_within (shapeRadius : R) (ball : Ball) :
  withinLimit shapeRadius ball -> hardLimit shapeRadius ball = ball.
Proof. unfold withinLimit, hardLimit. intros H. decide_R. reflexivity. Qed.

(** In a tick without collision only the forces act. *)
Lemma updatePhysics_noCollision (epsilon : R) (config : SimulationConfig)
    (gs : GlobalSettings) (width height : R) (state : State) :
  noCollision epsilon config gs width height state ->
  balls (updatePhysics epsilon config gs width height state)
  = map (integrate config gs) (balls state).
Proof.
  intros (Hwalls & Hballs & Hlimit). unfold updatePhysics. cbn [balls].
  set (verts := shapeVertices _ _ _) in *.
  assert (Hupd : map (updateBall epsilon config gs verts) (balls state)
                 = map (integrate config gs) (balls state)).
  { rewrite Forall_forall in Hwalls. apply map_ext_in. intros b Hb.
    unfold updateBall. apply wallCollisions_clear, Hwalls.
    apply list_elem_of_In, in_map, Hb. }
  rewrite Hupd.
  assert (Hcol : (if (1 <? length (map (integrate config gs) (balls state)))%nat
                  then store (ballCollisions epsilon config
                                (Rmin width height * 0.45)
                                (map (integrate config gs) (balls state)))
                  else map (integrate config gs) (balls state))
                 = map (integrate config gs) (balls state)).
  { destruct (_ <? _)%nat; [| reflexivity].
    apply ballCollisions_clear, Hballs. }
  rewrite Hcol.
  rewrite Forall_forall in Hlimit.
  rewrite <- (map_id (map (integrate config gs) (balls state))) at 2.
  apply map_ext_in. intros b Hb. apply hardLimit_within, Hlimit.
  apply list_elem_of_In, Hb.
Qed.

(** Without gravity and friction the forces keep a velocity on which the
    quadratic drag does not act. *)
Lemma integrate_vel_unchanged (config : SimulationConfig) (gs : GlobalSettings)
    (ball : Ball) :
  gravity config = 0 -> friction config = 0 ->
  mag (vel ball) <= 0.001 \/ timeScale gs = 0 ->
  vel (integrate config gs ball) = vel ball.
Proof.
  intros Hg Hf Hdrag. unfold integrate. cbn [vel pos set_vel set_pos].
  assert (Hv : mult {| x := x (vel ball);
                       y := y (vel ball)
                            + gravity config * gravityMultiplier gs * timeScale gs |}
                    (1 - friction config * timeScale gs)
               = vel ball).
  { rewrite Hg, Hf. apply Vector2_eq; simpl; lra. }
  rewrite Hv.
  destruct (Rgt_dec (mag (vel ball)) 0.001) as [Hfast | Hslow];
    cbn [vel pos set_vel set_pos]; [| reflexivity].
  destruct Hdrag as [Hle | Hts]; [lra |].
  rewrite Hts. apply Vector2_eq; simpl; lra.
Qed.

(** C1, as amended.  With zero gravity and zero friction configured, and no
    collision during the ticks, the velocity of a body is unchanged across
    [N] ticks provided the quadratic drag does not act on it: its speed is
    at most [0.001], or [timeScale] is zero.  The other bodies may be as
    fast as they like. *)
Theorem velocity_constant_without_drag (epsilon : R)
    (config : SimulationConfig) (gs : GlobalSettings) (width height : R)
    (N : nat) (state : State) (i : nat) (ball : Ball) :
  gravity config = 0 -> friction config = 0 ->
  balls state !! i = Some ball ->
  mag (vel ball) <= 0.001 \/ timeScale gs = 0 ->
  (forall k : nat, (k < N)%nat ->
     noCollision epsilon config gs width height
       (run epsilon config gs width height k state)) ->
  vel <$> (balls (run epsilon config gs width height N state) !! i)
  = Some (vel ball).
Proof.
  intros Hg Hf. revert state ball.
  induction N as [| N IH]; intros state ball Hi Hslow Hquiet; cbn [run].
  - rewrite Hi. reflexivity.
  - assert (Hstep : balls (updatePhysics epsilon config gs width height state)
                    = map (integrate config gs) (balls state)).
    { apply updatePhysics_noCollision. apply (Hquiet O). lia. }
    pose proof (integrate_vel_unchanged config gs ball Hg Hf Hslow) as Hvel.
    rewrite <- Hvel. apply IH.
    + rewrite Hstep. change (map (integrate config gs) (balls state))
        with (integrate config gs <$> balls state).
      rewrite list_lookup_fmap, Hi. reflexivity.
    + rewrite Hvel. exact Hslow.
    + intros k Hk. apply (Hquiet (S k)). lia.
Qed.

Lemma dot_ge_neg_mag (q n : Vector2) : dot n n = 1 -> - mag q <= dot q n.
Proof.
  intros Hn. pose proof (mag_nonneg q) as Hq. pose proof (mag_sqr q) as Hs.
  unfold dot in *.
  assert (Hcs : (x q * x n + y q * y n) * (x q * x n + y q * y n)
                <= mag q * mag q).
  { rewrite Hs.
    assert (H := Rle_0_sqr (x q * y n - y q * x n)). unfold Rsqr in H.
    replace (x q * x q + y q * y q)
      with ((x q * x q + y q * y q) * (x n * x n + y n * y n))
      by (rewrite Hn; ring).
    lra. }
  nra.
Qed.

Lemma square_vertices (theta : R) :
  theta = 0 ->
  generatePolygon 4 450 {| x := 0; y := 0 |} theta
  = [ {| x := 450; y := 0 |}; {| x := 0; y := 450 |};
      {| x := -450; y := 0 |}; {| x := 0; y := -450 |} ].
Proof.
  intros ->. unfold generatePolygon. cbn [seq map x y].
  assert (A0 : 0 + INR 0 * (2 * PI / INR 4) = 0) by (simpl; field).
  assert (A1 : 0 + INR 1 * (2 * PI / INR 4) = PI / 2) by (simpl; field).
  assert (A2 : 0 + INR 2 * (2 * PI / INR 4) = PI) by (simpl; field).
  assert (A3 : 0 + INR 3 * (2 * PI / INR 4) = 3 * (PI / 2)) by (simpl; field).
  rewrite A0, A1, A2, A3.
  rewrite cos_0, sin_0, cos_PI2, sin_PI2, cos_PI, sin_PI, cos_3PI2, sin_3PI2.
  repeat (f_equal; try (apply Vector2_eq; simpl; lra)).
Qed.

(** The distance of the origin from the line of an edge, times the length
    of the edge. *)
Lemma edgeNormal_origin (epsilon : R) (p1 p2 : Vector2) :
  0 <= epsilon -> epsilon < mag (sub p2 p1) ->
  dot (edgeNormal epsilon p1 p2) (mult p1 (-1)) * mag (sub p2 p1)
  = Rabs (x p1 * y p2 - y p1 * x p2).
Proof.
  intros H0 H. unfold edgeNormal.
  assert (Hm : mag {| x := - y (sub p2 p1); y := x (sub p2 p1) |}
               = mag (sub p2 p1)) by apply mag_perp.
  rewrite normalize_large by (rewrite Hm; assumption). rewrite Hm.
  set (m := mag (sub p2 p1)) in *.
  assert (Hpos : 0 < m) by lra.
  set (c := x p1 * y p2 - y p1 * x p2).
  set (n0 := {| x := _ / m; y := _ / m |}).
  assert (Hc : dot n0 (mult p1 (-1)) = c / m).
  { unfold n0, dot, sub, mult, c; simpl. field. lra. }
  assert (Hcm : c / m * m = c) by (field; lra).
  destruct (Rlt_dec (dot n0 (mult p1 (-1))) 0) as [Hneg | Hnon].
  - replace (dot {| x := x n0 * -1; y := y n0 * -1 |} (mult p1 (-1)))
      with (- dot n0 (mult p1 (-1))) by (unfold dot; simpl; ring).
    rewrite Hc in *. rewrite Rabs_left by nra. lra.
  - rewrite Hc in *. rewrite Rabs_right by nra. lra.
Qed.

(** A lower bound of the signed distance of a point from an edge. *)
Lemma edge_clearance (epsilon : R) (p1 p2 q : Vector2) :
  0 <= epsilon -> epsilon < mag (sub p2 p1) ->
  Rabs (x p1 * y p2 - y p1 * x p2) - mag q * mag (sub p2 p1)
  <= dot (sub q p1) (edgeNormal epsilon p1 p2) * mag (sub p2 p1).
Proof.
  intros H0 H.
  pose proof (edgeNormal_origin epsilon p1 p2 H0 H) as Ho.
  pose proof (dot_ge_neg_mag q _ (edgeNormal_unit epsilon p1 p2 H0 H)) as Hq.
  set (n := edgeNormal epsilon p1 p2) in *.
  set (m := mag (sub p2 p1)) in *.
  assert (Hsplit : dot (sub q p1) n = dot q n + dot n (mult p1 (-1)))
    by (unfold dot, sub, mult; simpl; ring).
  rewrite Hsplit, <- Ho. nra.
Qed.

(** A ball of radius at most [5] within distance [1] of the centre is clear
    of an edge of the square of circumradius [450]. *)
Lemma square_edge_clear (epsilon : R) (p1 p2 : Vector2) (ball : Ball) :
  0 <= epsilon <= 1 ->
  dot (sub p2 p1) (sub p2 p1) = 405000 ->
  Rabs (x p1 * y p2 - y p1 * x p2) = 202500 ->
  radius ball <= 5 -> mag (pos ball) <= 1 ->
  radius ball <= dot (sub (pos ball) p1) (edgeNormal epsilon p1 p2).
Proof.
  intros He Hlen Hcross Hr Hq.
  pose proof (mag_sqr (sub p2 p1)) as Hs. rewrite Hlen in Hs.
  pose proof (mag_nonneg (sub p2 p1)) as Hm.
  pose proof (mag_nonneg (pos ball)) as Hq0.
  assert (Hlo : 600 < mag (sub p2 p1)) by nra.
  assert (Hhi : mag (sub p2 p1) < 900) by nra.
  pose proof (edge_clearance epsilon p1 p2 (pos ball)) as Hc.
  rewrite Hcross in Hc.
  assert (Hc' := Hc ltac:(lra) ltac:(lra)).
  nra.
Qed.

Lemma square_clear (epsilon theta : R) (ball : Ball) :
  0 <= epsilon <= 1 -> theta = 0 ->
  radius ball <= 5 -> mag (pos ball) <= 1 ->
  clearOfWalls epsilon (generatePolygon 4 450 {| x := 0; y := 0 |} theta) ball.
Proof.
  intros He Ht Hr Hq. rewrite (square_vertices theta Ht).
  intros i Hi. simpl in Hi.
  destruct i as [| [| [| [| i]]]]; [| | | | lia];
    cbn [nth length Nat.modulo Nat.add Nat.divmod fst snd Nat.sub];
    apply square_edge_clear; try assumption;
    try (unfold dot, sub; simpl; lra);
    simpl; rewrite Rabs_right; lra.
Qed.

(** The square of the examples: a canvas of 1000 by 1000 holds a shape of
    radius 450; the shape does not turn. *)
Lemma square_noCollision (epsilon g : R) (gs : GlobalSettings)
    (state : State) (ball : Ball) :
  let config := mkConfig 0 0 g 5 0 polygon 4 in
  0 <= epsilon <= 1 ->
  rotation state = 0 -> balls state = [ball] ->
  radius ball <= 5 -> mag (pos (integrate config gs ball)) <= 1 ->
  noCollision epsilon config gs 1000 1000 state.
Proof.
  intros config He Hrot Hballs Hr Hq. unfold noCollision.
  rewrite Hballs, Hrot. cbn [map].
  assert (Hrad : radius (integrate config gs ball) = radius ball).
  { unfold integrate. destruct (Rgt_dec _ _); reflexivity. }
  split; [| split].
  - constructor; [| constructor]. unfold shapeVertices, vertexCountOr.
    cbn [shapeType vertexCount config].
    replace (Rmin 1000 1000 * 0.45) with 450
      by (rewrite Rmin_left; lra).
    apply square_clear; try assumption; [simpl; lra | lra].
  - intros i j a b Hij Hi Hj.
    destruct i, j; simpl in Hi, Hj; try congruence; try discriminate.
  - constructor; [| constructor]. unfold withinLimit.
    rewrite Rmin_left; lra.
Qed.

(** C1 as stated fails: a body alone in the square, with zero gravity and
    zero friction and far from every wall, moves with velocity [(1, 0)];
    after one tick its velocity is [(0.997, 0)], because the quadratic drag
    of lines 79-86 is always on. *)
Lemma drag_slows_a_free_body :
  let config := mkConfig 0 0 1 5 0 polygon 4 in
  let gs := mkSettings 1 1 1 1 in
  let ball :=
    mkBall "s-0" {| x := 0; y := 0 |} {| x := 1; y := 0 |} 5 "#FACC15" in
  let state := mkState [ball] 0 in
  gravity config = 0 /\ friction config = 0
  /\ (forall k : nat, (k < 1)%nat ->
        noCollision 0 config gs 1000 1000 (run 0 config gs 1000 1000 k state))
  /\ map vel (balls (run 0 config gs 1000 1000 1 state))
     = [ {| x := 0.997; y := 0 |} ]
  /\ map vel (balls (run 0 config gs 1000 1000 1 state))
     <> map vel (balls state).
Proof.
  intros config gs ball state.
  assert (Hint : integrate config gs ball
                 = mkBall "s-0" {| x := 0.997; y := 0 |}
                     {| x := 0.997; y := 0 |} 5 "#FACC15").
  { unfold integrate.
    cbn [x y vel pos set_vel set_pos gravity friction gravityMultiplier
         timeScale config gs ball].
    assert (Hv : mult {| x := 1; y := 0 + 0 * 1 * 1 |} (1 - 0 * 1)
                 = {| x := 1; y := 0 |})
      by (apply Vector2_eq; simpl; lra).
    rewrite Hv, mag_along_x, Rabs_right by lra.
    destruct (Rgt_dec 1 0.001); [| lra].
    unfold set_pos, set_vel; cbn [id pos vel radius color].
    f_equal; apply Vector2_eq; simpl; lra. }
  assert (Hquiet : noCollision 0 config gs 1000 1000 state).
  { apply (square_noCollision 0 1 gs state ball); try reflexivity;
      try (simpl; lra).
    fold config. rewrite Hint. cbn [pos].
    rewrite mag_along_x, Rabs_right; lra. }
  assert (Hrun : map vel (balls (run 0 config gs 1000 1000 1 state))
                 = [ {| x := 0.997; y := 0 |} ]).
  { cbn [run]. rewrite updatePhysics_noCollision by exact Hquiet.
    cbn [balls state map]. rewrite Hint. reflexivity. }
  split; [reflexivity |]. split; [reflexivity |]. split; [| split].
  - intros k Hk. assert (k = O) as -> by lia. exact Hquiet.
  - exact Hrun.
  - rewrite Hrun. cbn [balls state map vel ball]. intros Heq.
    injection Heq as Hx. lra.
Qed.

(** A ball on the first axis that moves along it, without gravity and
    friction and at time scale one: it stays on the axis, its speed does
    not grow, and it moves by its new speed. *)
Lemma integrate_on_axis (config : SimulationConfig) (gs : GlobalSettings)
    (ball : Ball) (v : R) :
  gravity config = 0 -> friction config = 0 -> timeScale gs = 1 ->
  vel ball = {| x := v; y := 0 |} -> 0 <= v <= 1 -> y (pos ball) = 0 ->
  exists v' : R,
    0 <= v' <= v
    /\ vel (integrate config gs ball) = {| x := v'; y := 0 |}
    /\ pos (integrate config gs ball) = {| x := x (pos ball) + v'; y := 0 |}
    /\ radius (integrate config gs ball) = radius ball.
Proof.
  intros Hg Hf Hts Hvel Hv Hy.
  assert (Hv2 : mult {| x := x (vel ball);
                        y := y (vel ball)
                             + gravity config * gravityMultiplier gs * timeScale gs |}
                     (1 - friction config * timeScale gs)
                = {| x := v; y := 0 |}).
  { rewrite Hg, Hf, Hvel. apply Vector2_eq; simpl; lra. }
  unfold integrate. cbn [vel pos set_vel set_pos]. rewrite Hv2.
  rewrite mag_along_x, Rabs_right by lra. rewrite Hts.
  destruct (Rgt_dec v 0.001) as [Hfast | Hslow]; cbn [vel pos set_vel set_pos].
  - exists (v + v * (- (0.003) * v) * 1). split; [nra |].
    split; [| split; [| reflexivity]].
    + apply Vector2_eq; simpl; lra.
    + apply Vector2_eq; simpl; lra.
  - exists v. split; [lra |]. split; [reflexivity |].
    split; [| reflexivity]. apply Vector2_eq; simpl; lra.
Qed.

(** Two small balls on the first axis, to the left and to the right of the
    centre of the square, moving to the right: a tick without collision. *)
Lemma square_noCollision_pair (epsilon : R) (gs : GlobalSettings)
    (state : State) (a b : Ball) (va vb : R) :
  let config := mkConfig 0 0 1 0.1 0 polygon 4 in
  0 <= epsilon <= 1 -> timeScale gs = 1 ->
  rotation state = 0 -> balls state = [a; b] ->
  radius a <= 0.1 -> radius b <= 0.1 ->
  vel a = {| x := va; y := 0 |} -> vel b = {| x := vb; y := 0 |} ->
  0 <= va <= 0.1 -> 0 <= vb <= 0.1 ->
  y (pos a) = 0 -> y (pos b) = 0 ->
  -0.6 <= x (pos a) <= -0.4 -> 0.4 <= x (pos b) <= 0.8 ->
  noCollision epsilon config gs 1000 1000 state.
Proof.
  intros config He Hts Hrot Hballs Hra Hrb Hva Hvb Hvar Hvbr Hya Hyb Hxa Hxb.
  destruct (integrate_on_axis config gs a va) as (va' & Hva' & _ & Hpa & Hra');
    try assumption; try reflexivity; try lra.
  destruct (integrate_on_axis config gs b vb) as (vb' & Hvb' & _ & Hpb & Hrb');
    try assumption; try reflexivity; try lra.
  assert (Hma : mag (pos (integrate config gs a)) <= 1).
  { rewrite Hpa, mag_along_x. apply Rabs_le. lra. }
  assert (Hmb : mag (pos (integrate config gs b)) <= 1).
  { rewrite Hpb, mag_along_x. apply Rabs_le. lra. }
  assert (Hgap : forall p q : Ball,
             pos p = {| x := x (pos a) + va'; y := 0 |} ->
             pos q = {| x := x (pos b) + vb'; y := 0 |} ->
             0.2 <= mag (sub (pos q) (pos p)) /\ 0.2 <= mag (sub (pos p) (pos q))).
  { intros p q -> ->. unfold sub; simpl.
    replace (0 - 0) with 0 by lra. rewrite !mag_along_x.
    split; [rewrite Rabs_right | rewrite Rabs_left]; lra. }
  unfold noCollision. rewrite Hballs, Hrot. cbn [map].
  assert (Hverts : shapeVertices config (Rmin 1000 1000 * 0.45)
                     (0 + rotationSpeed config * rotationMultiplier gs
                          * timeScale gs)
                   = generatePolygon 4 450 {| x := 0; y := 0 |}
                       (0 + rotationSpeed config * rotationMultiplier gs
                            * timeScale gs)).
  { unfold shapeVertices, vertexCountOr. cbn [shapeType vertexCount config].
    replace (Rmin 1000 1000 * 0.45) with 450 by (rewrite Rmin_left; lra).
    reflexivity. }
  rewrite Hverts.
  split; [| split].
  - constructor; [| constructor; [| constructor]];
      apply square_clear; try assumption; try (simpl; lra); lra.
  - intros i j p q Hij Hi Hj.
    destruct (Hgap _ _ Hpa Hpb) as [Hab Hba].
    destruct i as [| [| i]], j as [| [| j]]; simpl in Hi, Hj;
      try discriminate; try congruence;
      injection Hi as <-; injection Hj as <-; lra.
  - constructor; [| constructor; [| constructor]]; unfold withinLimit;
      rewrite Rmin_left; lra.
Qed.

(** A slow body beside a faster one in the square: two ticks.  The slow
    body keeps its velocity; the drag acts on the other one only. *)
Lemma velocity_constant_without_drag_witness :
  let config := mkConfig 0 0 1 0.1 0 polygon 4 in
  let gs := mkSettings 1 1 1 1 in
  let slow :=
    mkBall "s-0" {| x := -0.5; y := 0 |} {| x := 0.001; y := 0 |} 0.1 "#FACC15" in
  let fast :=
    mkBall "s-1" {| x := 0.5; y := 0 |} {| x := 0.1; y := 0 |} 0.1 "#FACC15" in
  let state := mkState [slow; fast] 0 in
  vel <$> (balls (run 0 config gs 1000 1000 2 state) !! 0%nat)
  = Some {| x := 0.001; y := 0 |}.
Proof.
  intros config gs slow fast state.
  assert (Hquiet0 : noCollision 0 config gs 1000 1000 state).
  { apply (square_noCollision_pair 0 gs state slow fast 0.001 0.1);
      try reflexivity; simpl; lra. }
  apply (velocity_constant_without_drag 0 config gs 1000 1000 2 state 0 slow).
  - reflexivity.
  - reflexivity.
  - reflexivity.
  - left. cbn [vel slow]. rewrite mag_along_x, Rabs_right; lra.
  - intros k Hk.
    assert (Hk' : k = O \/ k = 1%nat) by lia.
    destruct Hk' as [-> | ->]; [exact Hquiet0 |].
    cbn [run].
    destruct (integrate_on_axis config gs slow 0.001)
      as (vs & Hvs & Hvels & Hposs & Hrs); try reflexivity; try lra.
    destruct (integrate_on_axis config gs fast 0.1)
      as (vf & Hvf & Hvelf & Hposf & Hrf); try reflexivity; try lra.
    apply (square_noCollision_pair 0 gs _
             (integrate config gs slow) (integrate config gs fast) vs vf).
    + lra.
    + reflexivity.
    + cbn [rotation updatePhysics state rotationSpeed config]. lra.
    + rewrite updatePhysics_noCollision by exact Hquiet0. reflexivity.
    + rewrite Hrs. simpl. lra.
    + rewrite Hrf. simpl. lra.
    + exact Hvels.
    + exact Hvelf.
    + lra.
    + lra.
    + rewrite Hposs. reflexivity.
    + rewrite Hposf. reflexivity.
    + rewrite Hposs. simpl. lra.
    + rewrite Hposf. simpl. lra.
Defined.

(** ** The pair resolver (spec 4.6) *)

(** C5.  Two bodies of equal radius that overlap on a line parallel to the
    first axis and approach head-on with velocities [(v, 0)] and [(-v, 0)]
    leave [collide] with the velocities exchanged; total momentum and total
    kinetic energy are the same before and after.  [collide] takes neither
    the configuration nor the global settings: no restitution and no
    [bouncinessMultiplier] enters a ball-ball collision.  The distance [d]
    of the centres is above the threshold of [normalize]. *)
Theorem head_on_exchange (epsilon v d : R) (ballA ballB : Ball) :
  radius ballA = radius ballB ->
  vel ballA = {| x := v; y := 0 |} ->
  vel ballB = {| x := - v; y := 0 |} ->
  sub (pos ballB) (pos ballA) = {| x := d; y := 0 |} ->
  epsilon < Rabs d ->
  Rabs d < radius ballA + radius ballB ->
  0 < d * v ->
  let ballA' := fst (collide epsilon ballA ballB) in
  let ballB' := snd (collide epsilon ballA ballB) in
  vel ballA' = {| x := - v; y := 0 |}
  /\ vel ballB' = {| x := v; y := 0 |}
  /\ momentum ballA' ballB' = momentum ballA ballB
  /\ kineticEnergy ballA' ballB' = kineticEnergy ballA ballB.
Proof.
  intros Hr HvA HvB Hd Heps Hnear Happroach.
  assert (Hmag : mag {| x := d; y := 0 |} = Rabs d) by apply mag_along_x.
  assert (Hd0 : d <> 0) by nra.
  assert (Habs : 0 < Rabs d) by (apply Rabs_pos_lt; assumption).
  assert (Hunit : d / Rabs d * (d / Rabs d) = 1).
  { replace (d / Rabs d * (d / Rabs d)) with (d * d / (Rabs d * Rabs d))
      by (field; lra).
    replace (Rabs d * Rabs d) with (d * d); [field; nra |].
    unfold Rabs. destruct (Rcase_abs d); ring. }
  assert (Hsign : 0 < d / Rabs d * v).
  { replace (d / Rabs d * v) with (d * v * / Rabs d) by (field; lra).
    apply Rmult_lt_0_compat; [assumption |]. apply Rinv_0_lt_compat, Habs. }
  set (s := d / Rabs d) in *.
  assert (Hvel : vel (fst (collide epsilon ballA ballB)) = {| x := - v; y := 0 |}
                 /\ vel (snd (collide epsilon ballA ballB)) = {| x := v; y := 0 |}).
  { unfold collide. rewrite Hd, Hmag.
    destruct (Rlt_dec (Rabs d) (radius ballA + radius ballB)); [| lra].
    rewrite (normalize_large epsilon {| x := d; y := 0 |}) by (rewrite Hmag; lra).
    rewrite Hmag. cbn [x y vel pos set_vel set_pos]. fold s.
    rewrite HvA, HvB.
    replace (0 / Rabs d) with 0 by (field; lra).
    destruct (Rlt_dec _ _) as [Hin | Hout].
    - cbn [fst snd vel set_vel].
      split; apply Vector2_eq; unfold add, sub, mult, dot; simpl; nra.
    - exfalso. apply Hout. unfold dot, sub; simpl. nra. }
  destruct Hvel as [HA HB]. cbn zeta.
  unfold momentum, kineticEnergy. rewrite HA, HB, HvA, HvB.
  repeat split.
  - apply Vector2_eq; simpl; lra.
  - unfold dot; simpl. lra.
Qed.

(** Two bodies of radius [5] at [(0, 0)] and [(8, 0)], with velocities
    [(1, 0)] and [(-1, 0)]. *)
Lemma head_on_exchange_witness :
  let ballA :=
    mkBall "s-0" {| x := 0; y := 0 |} {| x := 1; y := 0 |} 5 "#FACC15" in
  let ballB :=
    mkBall "s-1" {| x := 8; y := 0 |} {| x := - (1); y := 0 |} 5 "#FACC15" in
  let ballA' := fst (collide 0 ballA ballB) in
  let ballB' := snd (collide 0 ballA ballB) in
  vel ballA' = {| x := - (1); y := 0 |}
  /\ vel ballB' = {| x := 1; y := 0 |}
  /\ momentum ballA' ballB' = momentum ballA ballB
  /\ kineticEnergy ballA' ballB' = kineticEnergy ballA ballB.
Proof.
  intros ballA ballB.
  apply (head_on_exchange 0 1 8 ballA ballB).
  - reflexivity.
  - reflexivity.
  - reflexivity.
  - apply Vector2_eq; simpl; lra.
  - rewrite Rabs_right; lra.
  - rewrite Rabs_right; simpl; lra.
  - lra.
Defined.



(** Away from coincident centres the collision logic is the resolver of
    the specification. *)
Lemma collide_is_collideSpec (epsilon : R) (ballA ballB : Ball) :
  mag (sub (pos ballB) (pos ballA)) <> 0 ->
  collide epsilon ballA ballB = collideSpec epsilon ballA ballB.
Proof.
  intros Hdist. unfold collide, collideSpec.
  destruct (Rlt_dec _ _) as [Hnear | Hfar];
    destruct (Rle_dec _ _) as [Hle | Hgt]; try lra; [| reflexivity].
  destruct (Req_dec_T _ _) as [Hzero | _]; [contradiction |].
  cbn [vel pos set_vel set_pos].
  set (n := normalize epsilon (sub (pos ballB) (pos ballA))).
  set (o := radius ballA + radius ballB - mag (sub (pos ballB) (pos ballA))).
  assert (HA : add (pos ballA) (mult n (- o / 2))
               = add (pos ballA) (mult (mult n (-1)) (o / 2)))
    by (apply Vector2_eq; simpl; lra).
  rewrite HA. destruct (Rlt_dec _ _); reflexivity.
Qed.



(** ** The final check (spec 4.7) *)

Lemma updatePhysics_final_check (epsilon : R) (config : SimulationConfig)
    (gs : GlobalSettings) (width height : R) (state : State) :
  balls (updatePhysics epsilon config gs width height state)
  = map (hardLimit (Rmin width height * 0.45))
        (ballsBeforeFinalCheck epsilon config gs width height state).
Proof. reflexivity. Qed.

Lemma hardLimit_cases (shapeRadius : R) (ball : Ball) :
  (mag (pos ball) > shapeRadius + 50 ->
     pos (hardLimit shapeRadius ball) = {| x := 0; y := 0 |}
     /\ vel (hardLimit shapeRadius ball) = {| x := 0; y := 0 |})
  /\ (~ mag (pos ball) > shapeRadius + 50 -> hardLimit shapeRadius ball = ball).
Proof.
  unfold hardLimit. destruct (Rgt_dec _ _) as [Hfar | Hnear]; split;
    intros H; try contradiction; try split; reflexivity.
Qed.

(** C8.  On a canvas (its width and height are not negative) every body is
    at most [shapeRadius + 50] from the centre after a tick: the final
    check resets a body beyond that bound to position [(0, 0)] and velocity
    [(0, 0)] and leaves every other body as steps 1 to 4 left it. *)
Theorem bodies_within_hard_limit (epsilon : R) (config : SimulationConfig)
    (gs : GlobalSettings) (width height : R) (state : State) :
  0 <= width -> 0 <= height ->
  let shapeRadius := Rmin width height * 0.45 in
  let before := ballsBeforeFinalCheck epsilon config gs width height state in
  let after := balls (updatePhysics epsilon config gs width height state) in
  Forall (fun ball => mag (pos ball) <= shapeRadius + 50) after
  /\ Forall2
       (fun ball ball' =>
          (mag (pos ball) > shapeRadius + 50 ->
             pos ball' = {| x := 0; y := 0 |}
             /\ vel ball' = {| x := 0; y := 0 |})
          /\ (~ mag (pos ball) > shapeRadius + 50 -> ball' = ball))
       before after.
Proof.
  intros Hw Hh shapeRadius before after.
  assert (Hsr : 0 <= shapeRadius).
  { unfold shapeRadius, Rmin. destruct (Rle_dec width height); lra. }
  subst after. rewrite updatePhysics_final_check. fold shapeRadius before.
  split.
  - apply Forall_forall. intros b' Hb'.
    apply list_elem_of_In, in_map_iff in Hb'. destruct Hb' as (b & <- & _).
    unfold hardLimit. destruct (Rgt_dec _ _) as [Hfar | Hnear].
    + cbn [pos set_pos set_vel]. fold zero. rewrite mag_zero. lra.
    + lra.
  - induction before as [| b before IH]; simpl; constructor.
    + apply hardLimit_cases.
    + apply IH.
Qed.

(** The body of the square, thrown far out of the canvas. *)
Lemma bodies_within_hard_limit_witness :
  let config := mkConfig 0 0 1 5 0 polygon 4 in
  let gs := mkSettings 1 1 1 1 in
  let ball :=
    mkBall "s-0" {| x := 900; y := 0 |} {| x := 1; y := 0 |} 5 "#FACC15" in
  let state := mkState [ball] 0 in
  Forall (fun ball => mag (pos ball) <= Rmin 1000 1000 * 0.45 + 50)
         (balls (updatePhysics 0 config gs 1000 1000 state)).
Proof.
  intros config gs ball state.
  apply (bodies_within_hard_limit 0 config gs 1000 1000 state); lra.
Defined.

(** ** What a tick leaves alone (spec 3) *)

Lemma sameIdentity_refl (ball : Ball) : sameIdentity ball ball.
Proof. repeat split. Qed.

Lemma sameIdentity_trans (b1 b2 b3 : Ball) :
  sameIdentity b1 b2 -> sameIdentity b2 b3 -> sameIdentity b1 b3.
Proof. unfold sameIdentity. intros (? & ? & ?) (? & ? & ?). repeat split; congruence. Qed.

Lemma integrate_sameIdentity (config : SimulationConfig) (gs : GlobalSettings)
    (ball : Ball) :
  sameIdentity ball (integrate config gs ball).
Proof. unfold integrate. destruct (Rgt_dec _ _); repeat split. Qed.

Lemma resolveEdge_sameIdentity (epsilon : R) (config : SimulationConfig)
    (gs : GlobalSettings) (p1 p2 : Vector2) (ball : Ball) :
  sameIdentity ball (resolveEdge epsilon config gs p1 p2 ball).
Proof.
  unfold resolveEdge.
  destruct (Rlt_dec _ _); [destruct (Rlt_dec _ _) |]; repeat split.
Qed.

Lemma updateBall_sameIdentity (epsilon : R) (config : SimulationConfig)
    (gs : GlobalSettings) (localVertices : list Vector2) (ball : Ball) :
  sameIdentity ball (updateBall epsilon config gs localVertices ball).
Proof.
  unfold updateBall, wallCollisions.
  apply (foldl_invariant (sameIdentity ball)).
  - intros b i Hb. eapply sameIdentity_trans; [exact Hb |].
    apply resolveEdge_sameIdentity.
  - apply integrate_sameIdentity.
Qed.

Lemma collide_sameIdentity (epsilon : R) (ballA ballB : Ball) :
  sameIdentity ballA (fst (collide epsilon ballA ballB))
  /\ sameIdentity ballB (snd (collide epsilon ballA ballB)).
Proof.
  unfold collide.
  destruct (Rlt_dec _ _); [destruct (Rlt_dec _ _) |]; repeat split.
Qed.

Lemma hardLimit_sameIdentity (shapeRadius : R) (ball : Ball) :
  sameIdentity ball (hardLimit shapeRadius ball).
Proof. unfold hardLimit. destruct (Rgt_dec _ _); repeat split. Qed.

(** Writing to one place of the store an object related to the one there. *)
Lemma Forall2_insert_right {A B : Type} (P : A -> B -> Prop) (l : list A)
    (k : list B) (i : nat) (y' : B) :
  Forall2 P l k ->
  (forall a, l !! i = Some a -> P a y') ->
  Forall2 P l (<[i := y']> k).
Proof.
  intros H. revert i. induction H as [| a b l k Hab Hlk IH]; intros i Hi.
  - constructor.
  - destruct i as [| i]; simpl; constructor; try assumption.
    + apply Hi. reflexivity.
    + apply IH. intros a' Ha'. apply Hi. exact Ha'.
Qed.

Lemma checkPair_sameIdentity (epsilon : R) (balls : list Ball) (s : PairPhase)
    (iA iB : nat) :
  Forall2 sameIdentity balls (store s) ->
  Forall2 sameIdentity balls (store (checkPair epsilon s iA iB)).
Proof.
  intros Hs. unfold checkPair.
  destruct (store s !! iA) as [ballA |] eqn:HA; [| assumption].
  destruct (store s !! iB) as [ballB |] eqn:HB; [| assumption].
  destruct (decide (id ballA = id ballB)); [assumption |].
  destruct (decide (_ ∈ _)); [assumption |].
  pose proof (collide_sameIdentity epsilon ballA ballB) as [HcA HcB].
  destruct (collide epsilon ballA ballB) as [ballA' ballB']. simpl in *.
  apply Forall2_insert_right; [apply Forall2_insert_right; [assumption |] |].
  - intros a Ha.
    destruct (Forall2_lookup_l _ _ _ _ _ Hs Ha) as (b & Hb & Hab).
    rewrite HA in Hb. injection Hb as <-.
    eapply sameIdentity_trans; eassumption.
  - intros a Ha.
    destruct (Forall2_lookup_l _ _ _ _ _ Hs Ha) as (b & Hb & Hab).
    rewrite HB in Hb. injection Hb as <-.
    eapply sameIdentity_trans; eassumption.
Qed.

Lemma Forall2_map_right {A B : Type} (P : A -> B -> Prop) (f : B -> B)
    (l : list A) (k : list B) :
  (forall a b, P a b -> P a (f b)) -> Forall2 P l k -> Forall2 P l (map f k).
Proof.
  intros Hf H. induction H; simpl; constructor; auto.
Qed.

(** C10.  A tick changes only positions and velocities: the bodies after
    the tick are as many as before and, place by place, have the [id], the
    [radius] and the [color] they had.  The configuration and the global
    settings are arguments of [updatePhysics] and no part of its result:
    the source reads their fields and assigns to none. *)
Theorem tick_keeps_identity (epsilon : R) (config : SimulationConfig)
    (gs : GlobalSettings) (width height : R) (state : State) :
  Forall2 sameIdentity (balls state)
    (balls (updatePhysics epsilon config gs width height state)).
Proof.
  rewrite updatePhysics_final_check.
  apply (Forall2_map_right sameIdentity).
  { intros a b Hab. eapply sameIdentity_trans; [exact Hab |].
    apply hardLimit_sameIdentity. }
  unfold ballsBeforeFinalCheck.
  set (verts := shapeVertices _ _ _).
  assert (Hupd : Forall2 sameIdentity (balls state)
                   (map (updateBall epsilon config gs verts) (balls state))).
  { induction (balls state) as [| b l IH]; simpl; constructor.
    - apply updateBall_sameIdentity.
    - exact IH. }
  destruct (_ <? _)%nat; [| exact Hupd].
  unfold ballCollisions.
  apply (checkGrid_invariant epsilon
           (fun s => Forall2 sameIdentity (balls state) (store s))).
  - intros s iA iB. apply checkPair_sameIdentity.
  - exact Hupd.
Qed.

(** ** The checked pairs (spec 4.6) *)

(** The key of a pair does not depend on the order of the two ids. *)
Lemma pairKey_comm (idA idB : string) : pairKey idA idB = pairKey idB idA.
Proof.
  unfold pairKey, String.ltb. rewrite (String.compare_antisym idB idA).
  destruct (String.compare idA idB) eqn:Hcmp; simpl; try reflexivity.
  apply String.compare_eq_iff in Hcmp. subst. reflexivity.
Qed.

Lemma keyOf_swap (balls : list Ball) (i j : nat) :
  keyOf balls (j, i) = keyOf balls (i, j).
Proof.
  unfold keyOf; simpl.
  destruct (balls !! i), (balls !! j); try reflexivity.
  rewrite pairKey_comm. reflexivity.
Qed.

(** A call of [checkPair] either changes nothing, or it runs the collision
    logic for two balls with different ids whose key is new, adds the key
    and logs the pair. *)
Lemma checkPair_cases (epsilon : R) (s : PairPhase) (iA iB : nat) :
  checkPair epsilon s iA iB = s
  \/ exists ballA ballB,
       store s !! iA = Some ballA /\ store s !! iB = Some ballB
       /\ id ballA <> id ballB
       /\ (pairKey (id ballA) (id ballB) ∉ checkedPairs s)
       /\ checkedPairs (checkPair epsilon s iA iB)
          = {[ pairKey (id ballA) (id ballB) ]} ∪ checkedPairs s
       /\ tested (checkPair epsilon s iA iB) = tested s ++ [(iA, iB)].
Proof.
  unfold checkPair.
  destruct (store s !! iA) as [ballA |]; [| left; reflexivity].
  destruct (store s !! iB) as [ballB |]; [| left; reflexivity].
  destruct (decide (id ballA = id ballB)) as [| Hid]; [left; reflexivity |].
  destruct (decide (_ ∈ _)) as [| Hnew]; [left; reflexivity |].
  right. exists ballA, ballB.
  destruct (collide epsilon ballA ballB) as [ballA' ballB']. simpl.
  repeat split; assumption.
Qed.

Lemma Forall2_sameIdentity_refl (balls : list Ball) :
  Forall2 sameIdentity balls balls.
Proof. induction balls; constructor; [apply sameIdentity_refl | assumption]. Qed.

(** The key of two references is the key of the ids of the balls now in
    the store. *)
Lemma keyOf_store (balls0 : list Ball) (s : PairPhase) (iA iB : nat)
    (ballA ballB : Ball) :
  Forall2 sameIdentity balls0 (store s) ->
  store s !! iA = Some ballA -> store s !! iB = Some ballB ->
  keyOf balls0 (iA, iB) = Some (pairKey (id ballA) (id ballB)).
Proof.
  intros Hs HA HB. unfold keyOf; simpl.
  destruct (Forall2_lookup_r _ _ _ _ _ Hs HA) as (a0 & -> & (Ha & _)).
  destruct (Forall2_lookup_r _ _ _ _ _ Hs HB) as (b0 & -> & (Hb & _)).
  rewrite Ha, Hb. reflexivity.
Qed.

Lemma checkPair_pairInv (epsilon : R) (balls0 : list Ball) (s : PairPhase)
    (iA iB : nat) :
  pairInv balls0 s -> pairInv balls0 (checkPair epsilon s iA iB).
Proof.
  intros (Hids & Hlog & Hnodup & Hkeys).
  pose proof (checkPair_sameIdentity epsilon balls0 s iA iB Hids) as Hids'.
  destruct (checkPair_cases epsilon s iA iB)
    as [Hsame | (ballA & ballB & HA & HB & Hid & Hnew & Hchecked & Htested)].
  { rewrite Hsame. repeat split; assumption. }
  pose proof (keyOf_store balls0 s iA iB ballA ballB Hids HA HB) as Hkey.
  split; [exact Hids' |]. rewrite Hchecked, Htested. split; [| split].
  - intros p Hp. apply elem_of_app in Hp. destruct Hp as [Hp | Hp].
    + destruct (Hlog p Hp) as (k & Hk & Hin). exists k. split; [exact Hk |].
      apply elem_of_union. right. exact Hin.
    + apply list_elem_of_singleton in Hp. subst p.
      exists (pairKey (id ballA) (id ballB)). split; [exact Hkey |].
      apply elem_of_union. left. apply elem_of_singleton. reflexivity.
  - rewrite fmap_app. apply NoDup_app. split; [exact Hnodup |]. split.
    + intros k Hk Hk'. simpl in Hk'. apply list_elem_of_singleton in Hk'.
      subst k. rewrite Hkey in Hk.
      apply list_elem_of_fmap in Hk. destruct Hk as (p & Hp & Hin).
      destruct (Hlog p Hin) as (k & Hk & Hkin).
      rewrite Hk in Hp. injection Hp as <-. contradiction.
    + simpl. apply NoDup_singleton.
  - intros k Hk. apply elem_of_union in Hk. destruct Hk as [Hk | Hk].
    + apply elem_of_singleton in Hk. subst k. exists (iA, iB).
      split; [| exact Hkey]. apply elem_of_app. right.
      apply list_elem_of_singleton. reflexivity.
    + destruct (Hkeys k Hk) as (p & Hp & Hkp). exists p.
      split; [| exact Hkp]. apply elem_of_app. left. exact Hp.
Qed.

Lemma ballCollisions_pairInv (epsilon : R) (config : SimulationConfig)
    (shapeRadius : R) (balls : list Ball) :
  pairInv balls (ballCollisions epsilon config shapeRadius balls).
Proof.
  unfold ballCollisions.
  apply (checkGrid_invariant epsilon (pairInv balls)).
  - intros s iA iB. apply checkPair_pairInv.
  - repeat split; simpl.
    + apply Forall2_sameIdentity_refl.
    + intros p Hp. apply elem_of_nil in Hp. contradiction.
    + constructor.
    + intros k Hk. apply elem_of_empty in Hk. contradiction.
Qed.

(** In a list whose images under [f] differ from one another, at most one
    element satisfies a property that fixes the image. *)
Lemma NoDup_filter_at_most_one {A B : Type} (f : A -> B) (P : A -> Prop)
    `{!forall a, Decision (P a)} (c : B) (l : list A) :
  NoDup (f <$> l) -> (forall a, P a -> f a = c) ->
  (length (filter P l) <= 1)%nat.
Proof.
  intros Hnodup HP. induction l as [| a l IH]; simpl; [lia |].
  rewrite fmap_cons in Hnodup. apply NoDup_cons in Hnodup.
  destruct Hnodup as [Hnotin Hnodup]. specialize (IH Hnodup).
  rewrite filter_cons. destruct (decide (P a)) as [Ha | Ha]; [| lia].
  assert (Hempty : filter P l = []).
  { destruct (filter P l) as [| b k] eqn:Hf; [reflexivity |].
    exfalso. apply Hnotin.
    assert (Hb : b ∈ filter P l) by (rewrite Hf; left).
    apply list_elem_of_filter in Hb. destruct Hb as [HPb Hbl].
    rewrite (HP a Ha), <- (HP b HPb).
    apply list_elem_of_fmap. exists b. split; [reflexivity | exact Hbl]. }
  rewrite Hempty. simpl. lia.
Qed.

(** C7.  In the pair phase of a tick the collision logic runs at most once
    for every unordered pair of bodies: the log [tested] holds at most one
    of [(i, j)] and [(j, i)], at most once. *)
Theorem pair_tested_at_most_once (epsilon : R) (config : SimulationConfig)
    (shapeRadius : R) (balls : list Ball) (i j : nat) :
  (length
     (filter (fun p => p = (i, j) \/ p = (j, i))
             (tested (ballCollisions epsilon config shapeRadius balls)))
   <= 1)%nat.
Proof.
  destruct (ballCollisions_pairInv epsilon config shapeRadius balls)
    as (_ & _ & Hnodup & _).
  apply (NoDup_filter_at_most_one (keyOf balls) _ (keyOf balls (i, j)));
    [exact Hnodup |].
  intros p [-> | ->]; [reflexivity | apply keyOf_swap].
Qed.

(** ** The spatial grid (spec 4.5) *)

Lemma grid_push_covers_new (key : CellKey) (i : nat) (grid : Grid) :
  covers (grid_push key i grid) i key.
Proof.
  unfold covers. induction grid as [| [k bucket] grid IH]; simpl.
  - destruct (decide (key = key)); [| contradiction].
    exists [i]. split; [reflexivity | left].
  - destruct (decide (k = key)) as [Hk | Hk]; simpl;
      destruct (decide (k = key)); try contradiction.
    + exists (bucket ++ [i]). split; [reflexivity |].
      apply elem_of_app. right. left.
    + exact IH.
Qed.

Lemma grid_push_covers_old (key' : CellKey) (i' : nat) (grid : Grid)
    (i : nat) (key : CellKey) :
  covers grid i key -> covers (grid_push key' i' grid) i key.
Proof.
  unfold covers. induction grid as [| [k bucket] grid IH]; simpl.
  - intros (b & Hb & _). discriminate.
  - intros (b & Hb & Hi).
    destruct (decide (k = key')) as [Hk' | Hk']; simpl;
      destruct (decide (k = key)) as [Hk | Hk].
    + injection Hb as <-. exists (bucket ++ [i']). split; [reflexivity |].
      apply elem_of_app. left. exact Hi.
    + exists b. split; assumption.
    + exists b. split; assumption.
    + apply IH. exists b. split; assumption.
Qed.

Lemma grid_get_elem (key : CellKey) (bucket : list nat) (grid : Grid) :
  grid_get key grid = Some bucket -> (key, bucket) ∈ grid.
Proof.
  induction grid as [| [k b] grid IH]; simpl; [discriminate |].
  destruct (decide (k = key)) as [-> | Hk].
  - intros [= ->]. left.
  - intros H. right. apply IH, H.
Qed.

(** Every ball is in the bucket of its cell. *)
Lemma buildGrid_covers (config : SimulationConfig) (worldBounds : R)
    (balls : list Ball) (i : nat) (ball : Ball) :
  balls !! i = Some ball ->
  covers (buildGrid config worldBounds balls) i
         (cellOf config worldBounds (pos ball)).
Proof.
  intros Hi. unfold buildGrid.
  assert (Hin : (i, ball) ∈ zip (seq 0 (length balls)) balls).
  { apply list_elem_of_lookup. exists i.
    apply lookup_zip_with_Some. exists i, ball. split; [reflexivity |].
    split; [| exact Hi]. apply lookup_seq. split; [lia |].
    apply lookup_lt_Some in Hi. exact Hi. }
  revert Hin. generalize (zip (seq 0 (length balls)) balls) as l.
  assert (Hgen : forall (l : list (nat * Ball)) (grid : Grid),
             (i, ball) ∈ l
             \/ covers grid i (cellOf config worldBounds (pos ball)) ->
             covers
               (foldl (fun grid '(i, ball) =>
                         grid_push (cellOf config worldBounds (pos ball)) i grid)
                      grid l)
               i (cellOf config worldBounds (pos ball))).
  { induction l as [| [i' ball'] l IH]; intros grid H; simpl.
    - destruct H as [H | H]; [apply elem_of_nil in H; contradiction | exact H].
    - apply IH. destruct H as [H | H].
      + apply elem_of_cons in H. destruct H as [[= <- <-] | H].
        * right. apply grid_push_covers_new.
        * left. exact H.
      + right. apply grid_push_covers_old, H. }
  intros l Hin. apply Hgen. left. exact Hin.
Qed.

(** Reals less than one apart have floors at most one apart. *)
Lemma Zfloor_near (u v : R) :
  Rabs (u - v) < 1 -> (Z.abs (Zfloor u - Zfloor v) <= 1)%Z.
Proof.
  intros H. apply Rabs_def2 in H. destruct H as [Hlt Hgt].
  pose proof (Zfloor_bound u) as [Hu1 Hu2].
  pose proof (Zfloor_bound v) as [Hv1 Hv2].
  assert (H1 : (Zfloor u < Zfloor v + 2)%Z).
  { apply lt_IZR. rewrite plus_IZR. simpl. lra. }
  assert (H2 : (Zfloor v < Zfloor u + 2)%Z).
  { apply lt_IZR. rewrite plus_IZR. simpl. lra. }
  lia.
Qed.

Lemma abs_x_le_mag (v : Vector2) : Rabs (x v) <= mag v.
Proof.
  pose proof (mag_sqr v) as Hs. pose proof (mag_nonneg v) as Hm.
  unfold dot in Hs. unfold Rabs. destruct (Rcase_abs (x v)); nra.
Qed.

Lemma abs_y_le_mag (v : Vector2) : Rabs (y v) <= mag v.
Proof.
  pose proof (mag_sqr v) as Hs. pose proof (mag_nonneg v) as Hm.
  unfold dot in Hs. unfold Rabs. destruct (Rcase_abs (y v)); nra.
Qed.

(** Two points closer than a cell is wide lie in cells at most one apart in
    each axis. *)
Lemma cellOf_near (config : SimulationConfig) (worldBounds : R)
    (p q : Vector2) :
  mag (sub q p) < cellSize config ->
  (Z.abs ((cellOf config worldBounds q).1 - (cellOf config worldBounds p).1) <= 1
   /\ Z.abs ((cellOf config worldBounds q).2 - (cellOf config worldBounds p).2) <= 1)%Z.
Proof.
  intros Hnear. pose proof (mag_nonneg (sub q p)) as Hm.
  assert (Hc : 0 < cellSize config) by lra.
  pose proof (abs_x_le_mag (sub q p)) as Hx.
  pose proof (abs_y_le_mag (sub q p)) as Hy.
  assert (Hdiv : forall t : R, Rabs t < cellSize config ->
                               Rabs (t / cellSize config) < 1).
  { intros t Ht. unfold Rdiv. rewrite Rabs_mult.
    rewrite (Rabs_right (/ cellSize config))
      by (left; apply Rinv_0_lt_compat, Hc).
    apply (Rmult_lt_reg_r (cellSize config)); [exact Hc |].
    rewrite Rmult_assoc, Rinv_l by lra. lra. }
  unfold cellOf; simpl. split; apply Zfloor_near.
  - replace ((x q + worldBounds) / cellSize config
             - (x p + worldBounds) / cellSize config)
      with (x (sub q p) / cellSize config) by (simpl; field; lra).
    apply Hdiv. lra.
  - replace ((y q + worldBounds) / cellSize config
             - (y p + worldBounds) / cellSize config)
      with (y (sub q p) / cellSize config) by (simpl; field; lra).
    apply Hdiv. lra.
Qed.

(** *** The loops visit the candidates *)

Lemma foldl_bind {A B C : Type} (f : A -> C -> A) (g : B -> list C)
    (h : A -> B -> A) (l : list B) (a : A) :
  (forall a b, foldl f a (g b) = h a b) ->
  foldl f a (l ≫= g) = foldl h a l.
Proof.
  intros H. revert a. induction l as [| b l IH]; intros a; [reflexivity |].
  rewrite bind_cons, foldl_app, H. simpl. apply IH.
Qed.

(** The nested loops run [checkPair] on the candidates, in order. *)
Lemma checkGrid_candidates (epsilon : R) (grid : Grid) (s : PairPhase) :
  checkGrid epsilon grid s
  = foldl (fun s p => checkPair epsilon s p.1 p.2) s (candidates grid).
Proof.
  unfold checkGrid, candidates.
  assert (Hgen : forall entries : Grid,
             foldl (checkCell epsilon grid) s entries
             = foldl (fun s p => checkPair epsilon s p.1 p.2) s
                 (entry ← entries;
                  dx ← offsets;
                  dy ← offsets;
                  match grid_get ((entry.1.1 + dx)%Z, (entry.1.2 + dy)%Z) grid with
                  | None => []
                  | Some neighborBalls =>
                      iA ← entry.2; iB ← neighborBalls; [(iA, iB)]
                  end)); [| apply Hgen].
  intros entries. symmetry. apply foldl_bind. clear s.
  intros s [[cellX cellY] cellBalls]. unfold checkCell. cbn [fst snd].
  apply foldl_bind. clear s. intros s dx.
  apply foldl_bind. clear s. intros s dy.
  destruct (grid_get _ _) as [neighborBalls |]; [| reflexivity].
  unfold checkBuckets.
  apply foldl_bind. clear s. intros s iA.
  apply foldl_bind. clear s. intros s iB. reflexivity.
Qed.

Lemma checkPair_checkedPairs_mono (epsilon : R) (s : PairPhase) (iA iB : nat)
    (k : string) :
  k ∈ checkedPairs s -> k ∈ checkedPairs (checkPair epsilon s iA iB).
Proof.
  intros Hk.
  destruct (checkPair_cases epsilon s iA iB)
    as [-> | (ballA & ballB & _ & _ & _ & _ & -> & _)]; [exact Hk |].
  apply elem_of_union. right. exact Hk.
Qed.

(** After [checkPair] on two balls with different ids their key is
    checked. *)
Lemma checkPair_checks (epsilon : R) (balls0 : list Ball) (s : PairPhase)
    (iA iB : nat) (a b : Ball) :
  Forall2 sameIdentity balls0 (store s) ->
  balls0 !! iA = Some a -> balls0 !! iB = Some b -> id a <> id b ->
  pairKey (id a) (id b) ∈ checkedPairs (checkPair epsilon s iA iB).
Proof.
  intros Hs Ha Hb Hid.
  destruct (Forall2_lookup_l _ _ _ _ _ Hs Ha) as (ballA & HA & (HidA & _)).
  destruct (Forall2_lookup_l _ _ _ _ _ Hs Hb) as (ballB & HB & (HidB & _)).
  rewrite <- HidA, <- HidB in *.
  destruct (checkPair_cases epsilon s iA iB)
    as [Hsame | (ballA' & ballB' & HA' & HB' & _ & _ & Hchecked & _)].
  - rewrite Hsame. unfold checkPair in Hsame. rewrite HA, HB in Hsame.
    destruct (decide (id ballA = id ballB)); [contradiction |].
    destruct (decide (_ ∈ _)) as [Hin | Hnew]; [exact Hin |].
    destruct (collide epsilon ballA ballB).
    apply (f_equal checkedPairs) in Hsame. simpl in Hsame.
    rewrite <- Hsame. apply elem_of_union. left.
    apply elem_of_singleton. reflexivity.
  - rewrite Hchecked. rewrite HA in HA'. rewrite HB in HB'.
    injection HA' as <-. injection HB' as <-.
    apply elem_of_union. left. apply elem_of_singleton. reflexivity.
Qed.

(** The key of every candidate with two different ids is checked when the
    loops end. *)
Lemma candidates_checked (epsilon : R) (balls0 : list Ball)
    (l : list (nat * nat)) (s : PairPhase) (iA iB : nat) (a b : Ball) :
  pairInv balls0 s -> (iA, iB) ∈ l ->
  balls0 !! iA = Some a -> balls0 !! iB = Some b -> id a <> id b ->
  pairKey (id a) (id b)
  ∈ checkedPairs (foldl (fun s p => checkPair epsilon s p.1 p.2) s l).
Proof.
  intros Hinv Hin Ha Hb Hid. revert s Hinv.
  induction l as [| p l IH]; intros s Hinv; simpl.
  - apply elem_of_nil in Hin. contradiction.
  - apply elem_of_cons in Hin. destruct Hin as [<- | Hin].
    + simpl.
      apply (foldl_invariant
               (fun s => pairKey (id a) (id b) ∈ checkedPairs s)).
      * intros s' p' Hs'. apply checkPair_checkedPairs_mono, Hs'.
      * apply (checkPair_checks epsilon balls0); try assumption.
        apply Hinv.
    + apply IH; [exact Hin |]. apply checkPair_pairInv, Hinv.
Qed.

(** *** Pair keys *)

Lemma append_nil_l (s : string) : "" +:+ s = s.
Proof. reflexivity. Qed.

Lemma append_cons_l (ch : ascii) (a s : string) :
  String ch a +:+ s = String ch (a +:+ s).
Proof. reflexivity. Qed.

(** An id without ['|'] ends at the first ['|'] of a key. *)
Lemma append_bar_inj (a b c d : string) :
  barFree a = true -> barFree c = true ->
  a +:+ "|" +:+ b = c +:+ "|" +:+ d -> a = c /\ b = d.
Proof.
  revert c. induction a as [| ch a IH]; intros [| ch' c] Ha Hc Heq;
    rewrite ?append_cons_l, ?append_nil_l in Heq; simpl in Ha, Hc.
  - injection Heq as ->. split; reflexivity.
  - injection Heq as <- _. simpl in Hc. discriminate.
  - injection Heq as -> _. simpl in Ha. discriminate.
  - injection Heq as -> Heq.
    apply andb_true_iff in Ha, Hc. destruct Ha as [_ Ha], Hc as [_ Hc].
    destruct (IH c Ha Hc Heq) as [-> ->]. split; reflexivity.
Qed.

Lemma barFree_keysSeparate (balls : list Ball) :
  Forall (fun ball => barFree (id ball) = true) balls -> keysSeparate balls.
Proof.
  intros Hfree a b c d Ha Hb Hc Hd.
  assert (Hbar : forall s : string, s ∈ id <$> balls -> barFree s = true).
  { intros s Hs. apply list_elem_of_fmap in Hs. destruct Hs as (ball & -> & Hin).
    rewrite Forall_forall in Hfree. apply Hfree, Hin. }
  apply Hbar in Ha, Hb, Hc, Hd. unfold pairKey.
  destruct (String.ltb a b), (String.ltb c d); intros Heq;
    apply append_bar_inj in Heq; try assumption;
    destruct Heq as [-> ->]; auto.
Qed.

Lemma append_assoc (a b c : string) : (a +:+ b) +:+ c = a +:+ (b +:+ c).
Proof.
  induction a as [| ch a IH]; rewrite ?append_nil_l, ?append_cons_l;
    [reflexivity | rewrite IH; reflexivity].
Qed.

Lemma append_cancel_l (p a b : string) : p +:+ a = p +:+ b -> a = b.
Proof.
  induction p as [| ch p IH]; rewrite ?append_nil_l, ?append_cons_l.
  - auto.
  - intros [= H]. apply IH, H.
Qed.

Lemma decimal_inj (i j : nat) : decimal i = decimal j -> i = j.
Proof.
  unfold decimal. intros H. apply Unsigned.to_uint_inj.
  assert (Hs : Some (Nat.to_uint i) = Some (Nat.to_uint j)).
  { rewrite <- !NilEmpty.usu. rewrite H. reflexivity. }
  injection Hs as Hs. exact Hs.
Qed.

Lemma decimal_barFree (i : nat) : barFree (decimal i) = true.
Proof.
  unfold decimal. generalize (Nat.to_uint i) as d.
  induction d; simpl; auto.
Qed.

Lemma ballId_inj (configId : string) (i j : nat) :
  ballId configId i = ballId configId j -> i = j.
Proof.
  unfold ballId. intros H. apply append_cancel_l in H.
  apply append_cancel_l in H. apply decimal_inj, H.
Qed.

(** A key made of two ids of line 40 gives both indices back: the numeral
    of the first ends at the first ['|'] after the common prefix. *)
Lemma ballId_key_inj (configId : string) (i j k l : nat) :
  ballId configId i +:+ "|" +:+ ballId configId j
  = ballId configId k +:+ "|" +:+ ballId configId l ->
  i = k /\ j = l.
Proof.
  intros H. unfold ballId at 1 3 in H. rewrite !append_assoc in H.
  apply append_cancel_l in H. apply append_cancel_l in H.
  apply append_bar_inj in H; try apply decimal_barFree.
  destruct H as [Hi Hj]. split.
  - apply decimal_inj, Hi.
  - apply (ballId_inj configId), Hj.
Qed.

(** The ids of line 40 differ from ball to ball, and their pair keys tell
    the pairs apart. *)
Lemma createdBy_ids (configId : string) (balls : list Ball) :
  createdBy configId balls -> NoDup (id <$> balls) /\ keysSeparate balls.
Proof.
  intros Hcreated.
  assert (Hform : forall s : string, s ∈ id <$> balls ->
                                     exists n : nat, s = ballId configId n).
  { intros s Hs. apply list_elem_of_fmap in Hs. destruct Hs as (ball & -> & Hin).
    apply list_elem_of_lookup in Hin. destruct Hin as (n & Hn).
    exists n. apply Hcreated, Hn. }
  split.
  - apply NoDup_alt. intros i j s Hi Hj.
    rewrite list_lookup_fmap in Hi, Hj.
    destruct (balls !! i) as [a |] eqn:Ha; [| discriminate].
    destruct (balls !! j) as [b |] eqn:Hb; [| discriminate].
    simpl in Hi, Hj. injection Hi as Hi. injection Hj as Hj.
    apply (ballId_inj configId).
    rewrite <- (Hcreated i a Ha), <- (Hcreated j b Hb). congruence.
  - intros a b c d Ha Hb Hc Hd.
    destruct (Hform a Ha) as (na & ->). destruct (Hform b Hb) as (nb & ->).
    destruct (Hform c Hc) as (nc & ->). destruct (Hform d Hd) as (nd & ->).
    unfold pairKey.
    destruct (String.ltb _ _), (String.ltb _ _); intros Heq;
      apply ballId_key_inj in Heq; destruct Heq as [-> ->]; auto.
Qed.

Lemma offset_of_near (d : Z) : (Z.abs d <= 1)%Z -> d ∈ offsets.
Proof.
  intros H. unfold offsets.
  assert (Hd : d = (-1)%Z \/ d = 0%Z \/ d = 1%Z) by lia.
  destruct Hd as [-> | [-> | ->]].
  - left.
  - right. left.
  - right. right. left.
Qed.

(** With ids that differ from ball to ball, equal ids mean equal
    references. *)
Lemma NoDup_id_lookup (balls : list Ball) (i j : nat) (a b : Ball) :
  NoDup (id <$> balls) ->
  balls !! i = Some a -> balls !! j = Some b -> id a = id b -> i = j.
Proof.
  intros Hnodup Ha Hb Hid.
  apply (NoDup_lookup (id <$> balls) i j (id a)); [exact Hnodup | |].
  - rewrite list_lookup_fmap, Ha. reflexivity.
  - rewrite list_lookup_fmap, Hb, Hid. reflexivity.
Qed.

(** C6.  Two bodies of radius [ballSize] whose circles overlap lie in cells
    whose coordinates differ by at most one in each axis; so the bucket
    that the 3x3 lookup around the cell of the one returns for some
    [(dx, dy)] holds the other; and, the ids being distinct and the pair
    keys telling them apart, the collision logic is run for the pair. *)
Theorem broad_phase_complete (epsilon : R) (config : SimulationConfig)
    (shapeRadius : R) (balls : list Ball) (i j : nat) (a b : Ball) :
  balls !! i = Some a -> balls !! j = Some b -> i <> j ->
  radius a = ballSize config -> radius b = ballSize config ->
  mag (sub (pos b) (pos a)) < radius a + radius b ->
  let worldBounds := shapeRadius * 1.1 in
  let grid := buildGrid config worldBounds balls in
  let cellA := cellOf config worldBounds (pos a) in
  let cellB := cellOf config worldBounds (pos b) in
  (Z.abs (cellB.1 - cellA.1) <= 1 /\ Z.abs (cellB.2 - cellA.2) <= 1)%Z
  /\ (exists (dx dy : Z) (cellBalls neighborBalls : list nat),
        dx ∈ offsets /\ dy ∈ offsets
        /\ (cellA, cellBalls) ∈ grid /\ i ∈ cellBalls
        /\ grid_get ((cellA.1 + dx)%Z, (cellA.2 + dy)%Z) grid
           = Some neighborBalls
        /\ j ∈ neighborBalls)
  /\ (NoDup (id <$> balls) -> keysSeparate balls ->
      (i, j) ∈ tested (ballCollisions epsilon config shapeRadius balls)
      \/ (j, i) ∈ tested (ballCollisions epsilon config shapeRadius balls)).
Proof.
  intros Ha Hb Hij HrA HrB Hoverlap worldBounds grid cellA cellB.
  pose proof (mag_nonneg (sub (pos b) (pos a))) as Hm.
  assert (Hnear : mag (sub (pos b) (pos a)) < cellSize config)
    by (unfold cellSize; lra).
  pose proof (cellOf_near config worldBounds (pos a) (pos b) Hnear) as Hcells.
  fold cellA cellB in Hcells. destruct Hcells as [Hcx Hcy].
  destruct (buildGrid_covers config worldBounds balls i a Ha)
    as (cellBalls & HgetA & HiA).
  destruct (buildGrid_covers config worldBounds balls j b Hb)
    as (neighborBalls & HgetB & HjB).
  fold grid cellA in HgetA. fold grid cellB in HgetB.
  assert (Hkey : ((cellA.1 + (cellB.1 - cellA.1))%Z,
                  (cellA.2 + (cellB.2 - cellA.2))%Z) = cellB).
  { destruct cellB as [bx by']; simpl. f_equal; lia. }
  assert (Hlookup :
    exists (dx dy : Z) (cellBalls neighborBalls : list nat),
      dx ∈ offsets /\ dy ∈ offsets
      /\ (cellA, cellBalls) ∈ grid /\ i ∈ cellBalls
      /\ grid_get ((cellA.1 + dx)%Z, (cellA.2 + dy)%Z) grid = Some neighborBalls
      /\ j ∈ neighborBalls).
  { exists (cellB.1 - cellA.1)%Z, (cellB.2 - cellA.2)%Z, cellBalls, neighborBalls.
    split; [apply offset_of_near, Hcx |].
    split; [apply offset_of_near, Hcy |].
    split; [apply grid_get_elem, HgetA |].
    split; [exact HiA |].
    split; [rewrite Hkey; exact HgetB | exact HjB]. }
  split; [split; assumption |]. split; [exact Hlookup |].
  intros Hnodup Hsep.
  assert (Hid : id a <> id b).
  { intros Heq. apply Hij. exact (NoDup_id_lookup balls i j a b Hnodup Ha Hb Heq). }
  (* the loops visit the pair *)
  assert (Hcand : (i, j) ∈ candidates grid).
  { destruct Hlookup as (dx & dy & cb & nb & Hdx & Hdy & Hentry & Hi & Hget & Hj).
    unfold candidates.
    apply list_elem_of_bind. exists (cellA, cb). split; [| exact Hentry].
    apply list_elem_of_bind. exists dx. split; [| exact Hdx].
    apply list_elem_of_bind. exists dy. split; [| exact Hdy].
    cbn [fst snd]. rewrite Hget.
    apply list_elem_of_bind. exists i. split; [| exact Hi].
    apply list_elem_of_bind. exists j. split; [left | exact Hj]. }
  (* so its key is checked, and a checked key is the key of a logged pair *)
  pose proof (ballCollisions_pairInv epsilon config shapeRadius balls)
    as (_ & _ & _ & Hkeys).
  assert (Hchecked : pairKey (id a) (id b)
                     ∈ checkedPairs (ballCollisions epsilon config shapeRadius balls)).
  { unfold ballCollisions. fold worldBounds grid.
    rewrite checkGrid_candidates.
    apply (candidates_checked epsilon balls (candidates grid) _ i j a b);
      try assumption.
    repeat split; simpl.
    - apply Forall2_sameIdentity_refl.
    - intros p Hp. apply elem_of_nil in Hp. contradiction.
    - constructor.
    - intros k Hk. apply elem_of_empty in Hk. contradiction. }
  destruct (Hkeys _ Hchecked) as ([p q] & Hlogged & Hkeypq).
  unfold keyOf in Hkeypq; simpl in Hkeypq.
  destruct (balls !! p) as [a' |] eqn:Hp; [| discriminate].
  destruct (balls !! q) as [b' |] eqn:Hq; [| discriminate].
  injection Hkeypq as Hkeypq.
  assert (Hmem : forall (n : nat) (c : Ball),
             balls !! n = Some c -> id c ∈ id <$> balls).
  { intros n c Hc. apply list_elem_of_fmap. exists c. split; [reflexivity |].
    apply list_elem_of_lookup. exists n. exact Hc. }
  destruct (Hsep (id a') (id b') (id a) (id b)
              (Hmem p a' Hp) (Hmem q b' Hq) (Hmem i a Ha) (Hmem j b Hb) Hkeypq)
    as [[HA HB] | [HA HB]].
  - left.
    rewrite <- (NoDup_id_lookup balls p i a' a Hnodup Hp Ha HA).
    rewrite <- (NoDup_id_lookup balls q j b' b Hnodup Hq Hb HB).
    exact Hlogged.
  - right.
    rewrite <- (NoDup_id_lookup balls p j a' b Hnodup Hp Hb HA).
    rewrite <- (NoDup_id_lookup balls q i b' a Hnodup Hq Ha HB).
    exact Hlogged.
Qed.

(** Two balls of radius [5] at [(0, 0)] and [(8, 0)]: cells of width
    [12.5], and the collision logic is run for the pair. *)
Lemma broad_phase_complete_witness :
  let config := mkConfig 0 0 1 5 0 polygon 4 in
  let a := mkBall "s-0" {| x := 0; y := 0 |} {| x := 1; y := 0 |} 5 "#FACC15" in
  let b := mkBall "s-1" {| x := 8; y := 0 |} {| x := 0; y := 1 |} 5 "#FACC15" in
  (0%nat, 1%nat) ∈ tested (ballCollisions 0 config 450 [a; b])
  \/ (1%nat, 0%nat) ∈ tested (ballCollisions 0 config 450 [a; b]).
Proof.
  intros config a b.
  assert (Hoverlap : mag (sub (pos b) (pos a)) < radius a + radius b).
  { replace (sub (pos b) (pos a)) with {| x := 8; y := 0 |}
      by (apply Vector2_eq; simpl; lra).
    rewrite mag_along_x, Rabs_right; simpl; lra. }
  destruct (broad_phase_complete 0 config 450 [a; b] 0 1 a b
              eq_refl eq_refl ltac:(lia) eq_refl eq_refl Hoverlap)
    as (_ & _ & Htested).
  apply Htested.
  - apply (createdBy_ids "s" [a; b]).
    intros [| [| n]] ball [= <-]; reflexivity.
  - apply (createdBy_ids "s" [a; b]).
    intros [| [| n]] ball [= <-]; reflexivity.
Defined.

(** * Further properties of the step *)

(** ** Rotation (line 62) *)

(** X1.  The rotation grows by the same amount at every tick: after [N]
    ticks it is the start value plus [N] times
    [rotationSpeed * rotationMultiplier * timeScale], whatever the balls
    do. *)
Theorem rotation_after_ticks (epsilon : R) (config : SimulationConfig)
    (gs : GlobalSettings) (width height : R) (N : nat) (state : State) :
  rotation (run epsilon config gs width height N state)
  = rotation state
    + INR N * (rotationSpeed config * rotationMultiplier gs * timeScale gs).
Proof.
  revert state. induction N as [| N IH]; intros state.
  - simpl. lra.
  - cbn [run]. rewrite IH. rewrite S_INR. cbn [rotation updatePhysics]. lra.
Qed.

(** ** Edge normals (lines 96-103) *)

Lemma normalize_zero_or_unit (epsilon : R) (v : Vector2) :
  0 <= epsilon ->
  normalize epsilon v = zero
  \/ dot (normalize epsilon v) (normalize epsilon v) = 1.
Proof.
  intros H0. destruct (Rle_dec (mag v) epsilon) as [Hle | Hgt].
  - left. apply normalize_small, Hle.
  - right. apply normalize_unit; lra.
Qed.

Lemma normalize_parallel (epsilon : R) (v : Vector2) :
  exists k : R, normalize epsilon v = mult v k.
Proof.
  unfold normalize. destruct (Rle_dec _ _).
  - exists 0. apply Vector2_eq; simpl; lra.
  - exists (/ mag v). apply Vector2_eq; reflexivity.
Qed.

(** X2.  The normal that the wall loop computes for an edge is
    perpendicular to the edge and never points away from the centre of the
    shape: its dot product with the vector from [p1] to the centre is not
    negative.  This holds for every edge, a degenerate one included. *)
Theorem edgeNormal_inward (epsilon : R) (p1 p2 : Vector2) :
  dot (edgeNormal epsilon p1 p2) (sub p2 p1) = 0
  /\ 0 <= dot (edgeNormal epsilon p1 p2) (mult p1 (-1)).
Proof.
  unfold edgeNormal.
  destruct (normalize_parallel epsilon
              {| x := - y (sub p2 p1); y := x (sub p2 p1) |}) as (k & Hk).
  rewrite Hk. set (n0 := mult _ k).
  assert (Hperp : dot n0 (sub p2 p1) = 0)
    by (unfold n0, dot, mult; simpl; ring).
  destruct (Rlt_dec (dot n0 (mult p1 (-1))) 0) as [Hneg | Hpos].
  - split.
    + unfold dot in *; simpl in *. lra.
    + unfold dot in *; simpl in *. lra.
  - split; [exact Hperp | lra].
Qed.

(** ** One edge (lines 105-121) *)

Lemma resolveEdge_pos (epsilon : R) (config : SimulationConfig)
    (gs : GlobalSettings) (p1 p2 : Vector2) (ball : Ball) :
  let n := edgeNormal epsilon p1 p2 in
  let d := dot (sub (pos ball) p1) n in
  d < radius ball ->
  pos (resolveEdge epsilon config gs p1 p2 ball)
  = add (pos ball) (mult n (radius ball - d)).
Proof.
  intros n d Hd. unfold resolveEdge. fold n. fold d.
  destruct (Rlt_dec d (radius ball)); [| lra]. cbn [vel pos set_vel set_pos].
  destruct (Rlt_dec _ _); reflexivity.
Qed.

Lemma resolveEdge_vel_kept (epsilon : R) (config : SimulationConfig)
    (gs : GlobalSettings) (p1 p2 : Vector2) (ball : Ball) :
  ~ dot (vel ball) (edgeNormal epsilon p1 p2) < 0 ->
  vel (resolveEdge epsilon config gs p1 p2 ball) = vel ball.
Proof.
  intros Hv. unfold resolveEdge.
  destruct (Rlt_dec _ _); [| reflexivity]. cbn [vel pos set_vel set_pos].
  destruct (Rlt_dec _ _); [contradiction | reflexivity].
Qed.

(** X3.  For an edge longer than the threshold of [normalize], a ball that
    had penetrated the edge touches it after the correction (its signed
    distance is its radius), and resolving the same edge a second time
    changes nothing. *)
Theorem resolveEdge_idempotent (epsilon : R) (config : SimulationConfig)
    (gs : GlobalSettings) (p1 p2 : Vector2) (ball : Ball) :
  0 <= epsilon -> epsilon < mag (sub p2 p1) ->
  let n := edgeNormal epsilon p1 p2 in
  let ball' := resolveEdge epsilon config gs p1 p2 ball in
  (dot (sub (pos ball) p1) n < radius ball ->
     dot (sub (pos ball') p1) n = radius ball)
  /\ resolveEdge epsilon config gs p1 p2 ball' = ball'.
Proof.
  intros H0 Hedge n ball'.
  pose proof (edgeNormal_unit epsilon p1 p2 H0 Hedge) as Hn. fold n in Hn.
  destruct (resolveEdge_sameIdentity epsilon config gs p1 p2 ball)
    as (_ & Hrad & _). fold ball' in Hrad.
  assert (Htouch : dot (sub (pos ball) p1) n < radius ball ->
                   dot (sub (pos ball') p1) n = radius ball).
  { intros Hd. unfold ball'. rewrite resolveEdge_pos by exact Hd. fold n.
    unfold dot in *; simpl.
    transitivity ((x (pos ball) - x p1) * x n + (y (pos ball) - y p1) * y n
                  + (radius ball
                     - ((x (pos ball) - x p1) * x n
                        + (y (pos ball) - y p1) * y n))
                    * (x n * x n + y n * y n)); [ring |].
    rewrite Hn. ring. }
  split; [exact Htouch |].
  destruct (Rlt_dec (dot (sub (pos ball) p1) n) (radius ball)) as [Hd | Hd].
  - apply resolveEdge_clear. fold n. rewrite Hrad, (Htouch Hd). lra.
  - assert (Hsame : ball' = ball) by (apply resolveEdge_clear; fold n; lra).
    rewrite Hsame. apply resolveEdge_clear. fold n. lra.
Qed.

(** A ball inside the wall [x = 1]. *)
Lemma resolveEdge_idempotent_witness :
  let config := mkConfig 0 0 0.5 1 0 polygon 4 in
  let gs := mkSettings 1 1 1 1 in
  let p1 := {| x := 1; y := -1 |} in
  let p2 := {| x := 1; y := 1 |} in
  let ball :=
    mkBall "b-0" {| x := 0.9; y := 0 |} {| x := 1; y := 1 |} 0.5 "#FACC15" in
  let ball' := resolveEdge 0 config gs p1 p2 ball in
  resolveEdge 0 config gs p1 p2 ball' = ball'.
Proof.
  intros config gs p1 p2 ball ball'.
  apply (resolveEdge_idempotent 0 config gs p1 p2 ball).
  - lra.
  - unfold p1, p2, sub; simpl.
    replace {| x := 1 - 1; y := 1 - -1 |} with {| x := 0; y := 2 |}
      by (f_equal; lra).
    rewrite mag_along_y, Rabs_right; lra.
Defined.

(** X4.  With a restitution that is not negative, a ball that had
    penetrated an edge does not move into the wall after the edge is
    resolved; after a bounce its velocity along the inward normal is at
    least the nudge [0.1]. *)
Theorem resolveEdge_leaves_wall (epsilon : R) (config : SimulationConfig)
    (gs : GlobalSettings) (p1 p2 : Vector2) (ball : Ball) :
  0 <= epsilon -> epsilon < mag (sub p2 p1) ->
  0 <= restitution config * bouncinessMultiplier gs ->
  let n := edgeNormal epsilon p1 p2 in
  let ball' := resolveEdge epsilon config gs p1 p2 ball in
  dot (sub (pos ball) p1) n < radius ball ->
  0 <= dot (vel ball') n
  /\ (dot (vel ball) n < 0 -> 0.1 <= dot (vel ball') n).
Proof.
  intros H0 Hedge He n ball' Hd.
  pose proof (edgeNormal_unit epsilon p1 p2 H0 Hedge) as Hn. fold n in Hn.
  assert (Hbounce : dot (vel ball) n < 0 -> 0.1 <= dot (vel ball') n).
  { intros Hv. unfold ball'.
    rewrite (resolveEdge_bounce epsilon config gs p1 p2 ball Hd Hv). fold n.
    unfold dot in *; simpl. rewrite bounce_normal by exact Hn. nra. }
  split; [| exact Hbounce].
  destruct (Rlt_dec (dot (vel ball) n) 0) as [Hv | Hv].
  - specialize (Hbounce Hv). lra.
  - unfold ball'. rewrite resolveEdge_vel_kept by exact Hv. fold n. lra.
Qed.

Lemma resolveEdge_leaves_wall_witness :
  let config := mkConfig 0 0 0.5 1 0 polygon 4 in
  let gs := mkSettings 1 1 1 1 in
  let p1 := {| x := 1; y := -1 |} in
  let p2 := {| x := 1; y := 1 |} in
  let ball :=
    mkBall "b-0" {| x := 0.9; y := 0 |} {| x := 1; y := 1 |} 0.5 "#FACC15" in
  let n := edgeNormal 0 p1 p2 in
  let ball' := resolveEdge 0 config gs p1 p2 ball in
  0 <= dot (vel ball') n /\ (dot (vel ball) n < 0 -> 0.1 <= dot (vel ball') n).
Proof.
  intros config gs p1 p2 ball n ball'.
  assert (Hn : n = {| x := -1; y := 0 |})
    by (apply edgeNormal_vertical; lra).
  apply (resolveEdge_leaves_wall 0 config gs p1 p2 ball).
  - lra.
  - unfold p1, p2, sub; simpl.
    replace {| x := 1 - 1; y := 1 - -1 |} with {| x := 0; y := 2 |}
      by (f_equal; lra).
    rewrite mag_along_y, Rabs_right; lra.
  - simpl; lra.
  - fold n. rewrite Hn. unfold dot; simpl. lra.
Defined.

(** ** One pair (lines 167-202) *)

Lemma mag_mult (v : Vector2) (c : R) : mag (mult v c) = Rabs c * mag v.
Proof.
  unfold mag, mult; simpl.
  replace (x v * c * (x v * c) + y v * c * (y v * c))
    with (Rsqr c * (x v * x v + y v * y v)) by (unfold Rsqr; ring).
  rewrite sqrt_mult; [| apply Rle_0_sqr | nra].
  rewrite sqrt_Rsqr_abs. reflexivity.
Qed.

Lemma mag_zero_inv (v : Vector2) : mag v = 0 -> v = zero.
Proof.
  intros H. pose proof (mag_sqr v) as Hs. rewrite H in Hs. unfold dot in Hs.
  apply Vector2_eq; simpl; nra.
Qed.

(** The positions after the collision logic, for an overlapping pair. *)
Lemma collide_pos (epsilon : R) (ballA ballB : Ball) :
  let distVec := sub (pos ballB) (pos ballA) in
  let overlap := radius ballA + radius ballB - mag distVec in
  let correctionNormal :=
    if Req_dec_T (mag distVec) 0 then {| x := 1; y := 0 |}
    else normalize epsilon distVec in
  mag distVec < radius ballA + radius ballB ->
  pos (fst (collide epsilon ballA ballB))
  = add (pos ballA) (mult correctionNormal ((- overlap) / 2))
  /\ pos (snd (collide epsilon ballA ballB))
     = add (pos ballB) (mult correctionNormal (overlap / 2)).
Proof.
  intros distVec overlap correctionNormal Hnear. unfold collide.
  fold distVec. destruct (Rlt_dec _ _); [| lra].
  fold overlap. fold correctionNormal. cbn [vel pos set_vel set_pos].
  destruct (Rlt_dec _ _); split; reflexivity.
Qed.

(** The velocities after the collision logic: exchanged along the normal
    for an overlapping pair that approaches, kept otherwise. *)
Lemma collide_vel (epsilon : R) (ballA ballB : Ball) :
  let n := normalize epsilon (sub (pos ballB) (pos ballA)) in
  let a := dot (vel ballA) n in
  let b := dot (vel ballB) n in
  (mag (sub (pos ballB) (pos ballA)) < radius ballA + radius ballB
   /\ dot (sub (vel ballB) (vel ballA)) n < 0
   /\ vel (fst (collide epsilon ballA ballB))
      = add (sub (vel ballA) (mult n a)) (mult n b)
   /\ vel (snd (collide epsilon ballA ballB))
      = add (sub (vel ballB) (mult n b)) (mult n a))
  \/ ((~ mag (sub (pos ballB) (pos ballA)) < radius ballA + radius ballB
       \/ ~ dot (sub (vel ballB) (vel ballA)) n < 0)
      /\ vel (fst (collide epsilon ballA ballB)) = vel ballA
      /\ vel (snd (collide epsilon ballA ballB)) = vel ballB).
Proof.
  intros n a b. unfold collide. fold n.
  destruct (Rlt_dec _ _) as [Hnear | Hfar].
  - cbn [vel pos set_vel set_pos].
    destruct (Rlt_dec _ _) as [Hin | Hout].
    + left. repeat split; assumption.
    + right. repeat split. right. exact Hout.
  - right. repeat split. left. exact Hfar.
Qed.

Lemma exchange_energy (ax ay bx by' nx ny : R) :
  nx * nx + ny * ny = 1 ->
  let a := ax * nx + ay * ny in
  let b := bx * nx + by' * ny in
  (ax - nx * a + nx * b) * (ax - nx * a + nx * b)
  + (ay - ny * a + ny * b) * (ay - ny * a + ny * b)
  + ((bx - nx * b + nx * a) * (bx - nx * b + nx * a)
     + (by' - ny * b + ny * a) * (by' - ny * b + ny * a))
  = ax * ax + ay * ay + (bx * bx + by' * by').
Proof.
  intros H a b.
  transitivity (ax * ax + ay * ay + (bx * bx + by' * by')
                + 2 * (a - b) * (a - b) * (nx * nx + ny * ny - 1));
    [subst a b; ring |].
  rewrite H. ring.
Qed.

(** The collision logic conserves, for every pair it is given, the total
    momentum of the two bodies and the midpoint of their centres: it moves
    and accelerates the two by opposite amounts. *)
Lemma collide_conserves_momentum (epsilon : R) (ballA ballB : Ball) :
  momentum (fst (collide epsilon ballA ballB)) (snd (collide epsilon ballA ballB))
  = momentum ballA ballB
  /\ add (pos (fst (collide epsilon ballA ballB)))
         (pos (snd (collide epsilon ballA ballB)))
     = add (pos ballA) (pos ballB).
Proof.
  split.
  - unfold momentum.
    destruct (collide_vel epsilon ballA ballB)
      as [(_ & _ & -> & ->) | (_ & -> & ->)]; [| reflexivity].
    apply Vector2_eq; simpl; ring.
  - destruct (Rlt_dec (mag (sub (pos ballB) (pos ballA)))
                      (radius ballA + radius ballB)) as [Hnear | Hfar].
    + destruct (collide_pos epsilon ballA ballB Hnear) as [-> ->].
      apply Vector2_eq; simpl; field.
    + unfold collide. destruct (Rlt_dec _ _); [contradiction | reflexivity].
Qed.

(** The collision logic conserves the total kinetic energy of every pair
    it is given: a ball-ball collision is perfectly elastic. *)
Lemma collide_conserves_energy (epsilon : R) (ballA ballB : Ball) :
  0 <= epsilon ->
  kineticEnergy (fst (collide epsilon ballA ballB))
                (snd (collide epsilon ballA ballB))
  = kineticEnergy ballA ballB.
Proof.
  intros H0. unfold kineticEnergy.
  destruct (collide_vel epsilon ballA ballB)
    as [(_ & Hin & -> & ->) | (_ & -> & ->)]; [| reflexivity].
  destruct (normalize_zero_or_unit epsilon (sub (pos ballB) (pos ballA)) H0)
    as [Hzero | Hunit].
  - rewrite Hzero in Hin. unfold dot, zero in Hin; simpl in Hin. lra.
  - set (n := normalize epsilon (sub (pos ballB) (pos ballA))) in *.
    unfold dot in *; simpl.
    pose proof (exchange_energy (x (vel ballA)) (y (vel ballA))
                  (x (vel ballB)) (y (vel ballB)) (x n) (y n) Hunit) as He.
    cbn zeta in He. lra.
Qed.

(** X5.  After the collision logic, two bodies that overlapped are exactly
    as far apart as the sum of their radii: they touch.  The centres either
    coincided, or were further apart than the threshold of [normalize]. *)
Theorem collide_touching (epsilon : R) (ballA ballB : Ball) :
  let distance := mag (sub (pos ballB) (pos ballA)) in
  distance < radius ballA + radius ballB ->
  distance = 0 \/ epsilon < distance ->
  mag (sub (pos (snd (collide epsilon ballA ballB)))
           (pos (fst (collide epsilon ballA ballB))))
  = radius ballA + radius ballB.
Proof.
  intros distance Hnear Hcases.
  pose proof (mag_nonneg (sub (pos ballB) (pos ballA))) as Hm.
  fold distance in Hm.
  destruct (collide_pos epsilon ballA ballB Hnear) as [-> ->].
  fold distance.
  set (total := radius ballA + radius ballB) in *.
  destruct (Req_dec_T distance 0) as [Hzero | Hpos].
  - assert (Hvec : sub (pos ballB) (pos ballA) = zero)
      by (apply mag_zero_inv, Hzero).
    apply (f_equal x) in Hvec as Hx. apply (f_equal y) in Hvec as Hy.
    simpl in Hx, Hy.
    replace (sub _ _) with {| x := total; y := 0 |}.
    + rewrite mag_along_x, Rabs_right; lra.
    + apply Vector2_eq; simpl; rewrite Hzero; lra.
  - destruct Hcases as [Hzero | Hlarge]; [contradiction |].
    rewrite normalize_large by exact Hlarge. fold distance.
    replace (sub _ _)
      with (mult (sub (pos ballB) (pos ballA)) (total / distance)).
    + rewrite mag_mult. fold distance.
      rewrite Rabs_right.
      * field. lra.
      * apply Rle_ge. apply Rmult_le_pos; [lra |].
        left. apply Rinv_0_lt_compat. lra.
    + apply Vector2_eq; simpl; field; lra.
Qed.

Lemma collide_touching_witness :
  let ballA :=
    mkBall "s-0" {| x := 0; y := 0 |} {| x := 1; y := 2 |} 5 "#FACC15" in
  let ballB :=
    mkBall "s-1" {| x := 8; y := 0 |} {| x := -3; y := 1 |} 5 "#FACC15" in
  mag (sub (pos (snd (collide 0 ballA ballB))) (pos (fst (collide 0 ballA ballB))))
  = 5 + 5.
Proof.
  intros ballA ballB.
  assert (Hd : mag (sub (pos ballB) (pos ballA)) = 8).
  { replace (sub (pos ballB) (pos ballA)) with {| x := 8; y := 0 |}
      by (apply Vector2_eq; simpl; lra).
    rewrite mag_along_x, Rabs_right; lra. }
  apply (collide_touching 0 ballA ballB).
  - rewrite Hd. simpl. lra.
  - right. rewrite Hd. lra.
Defined.

(** X6.  After the collision logic, two bodies that overlapped do not
    approach each other along the collision normal: an approach is turned
    into the separation of the same speed. *)
Theorem collide_stops_approach (epsilon : R) (ballA ballB : Ball) :
  0 <= epsilon ->
  let n := normalize epsilon (sub (pos ballB) (pos ballA)) in
  let ballA' := fst (collide epsilon ballA ballB) in
  let ballB' := snd (collide epsilon ballA ballB) in
  mag (sub (pos ballB) (pos ballA)) < radius ballA + radius ballB ->
  0 <= dot (sub (vel ballB') (vel ballA')) n
  /\ (dot (sub (vel ballB) (vel ballA)) n < 0 ->
      dot (sub (vel ballB') (vel ballA')) n
      = - dot (sub (vel ballB) (vel ballA)) n).
Proof.
  intros H0 n ballA' ballB' Hnear. subst ballA' ballB'.
  pose proof (collide_vel epsilon ballA ballB) as Hvel.
  cbn zeta in Hvel. fold n in Hvel.
  pose proof (normalize_zero_or_unit epsilon (sub (pos ballB) (pos ballA)) H0)
    as Hnorm.
  fold n in Hnorm.
  destruct Hvel as [(_ & Hin & -> & ->) | ([Hfar | Hout] & -> & ->)].
  - destruct Hnorm as [Hzero | Hunit].
    + rewrite Hzero in Hin. unfold dot, zero in Hin; simpl in Hin. lra.
    + assert (Heq : dot (sub (add (sub (vel ballB) (mult n (dot (vel ballB) n)))
                                  (mult n (dot (vel ballA) n)))
                             (add (sub (vel ballA) (mult n (dot (vel ballA) n)))
                                  (mult n (dot (vel ballB) n)))) n
                    = - dot (sub (vel ballB) (vel ballA)) n).
      { unfold dot in *; simpl.
        transitivity
          ((x (vel ballB) * x n + y (vel ballB) * y n
            - (x (vel ballA) * x n + y (vel ballA) * y n))
           * (1 - 2 * (x n * x n + y n * y n))); [ring |].
        rewrite Hunit. ring. }
      rewrite Heq. split; [lra | intros _; reflexivity].
  - contradiction.
  - split; [lra | intros Hin; contradiction].
Qed.

Lemma collide_stops_approach_witness :
  let ballA :=
    mkBall "s-0" {| x := 0; y := 0 |} {| x := 1; y := 2 |} 5 "#FACC15" in
  let ballB :=
    mkBall "s-1" {| x := 8; y := 0 |} {| x := -3; y := 1 |} 5 "#FACC15" in
  let n := normalize 0 (sub (pos ballB) (pos ballA)) in
  0 <= dot (sub (vel (snd (collide 0 ballA ballB)))
                (vel (fst (collide 0 ballA ballB)))) n.
Proof.
  intros ballA ballB n.
  assert (Hd : mag (sub (pos ballB) (pos ballA)) = 8).
  { replace (sub (pos ballB) (pos ballA)) with {| x := 8; y := 0 |}
      by (apply Vector2_eq; simpl; lra).
    rewrite mag_along_x, Rabs_right; lra. }
  apply (collide_stops_approach 0 ballA ballB).
  - lra.
  - rewrite Hd. simpl. lra.
Defined.

(** ** Forces (lines 75-86) *)

(** X7.  Without gravity, friction and drag only shorten the velocity and
    never turn it: the new velocity is the old one times a factor between
    [0] and [1].  This needs a forward time scale, [friction * timeScale]
    between [0] and [1], and a speed low enough for the drag factor,
    [0.003 * speed * timeScale <= 1]. *)
Theorem integrate_damps (config : SimulationConfig) (gs : GlobalSettings)
    (ball : Ball) :
  gravity config * gravityMultiplier gs * timeScale gs = 0 ->
  0 <= timeScale gs ->
  0 <= friction config * timeScale gs <= 1 ->
  0.003 * mag (vel ball) * timeScale gs <= 1 ->
  exists c : R,
    0 <= c <= 1 /\ vel (integrate config gs ball) = mult (vel ball) c.
Proof.
  intros Hg Hts Hf Hdrag.
  pose proof (mag_nonneg (vel ball)) as Hm.
  set (k := 1 - friction config * timeScale gs).
  assert (Hk : 0 <= k <= 1) by (unfold k; lra).
  assert (Hv : mult {| x := x (vel ball);
                       y := y (vel ball)
                            + gravity config * gravityMultiplier gs * timeScale gs |}
                    k
               = mult (vel ball) k).
  { rewrite Hg. apply Vector2_eq; simpl; lra. }
  unfold integrate. cbn [vel pos set_vel set_pos]. fold k. rewrite Hv.
  assert (Hm2 : mag (mult (vel ball) k) = k * mag (vel ball)).
  { rewrite mag_mult, Rabs_right; lra. }
  destruct (Rgt_dec _ _) as [Hfast | Hslow]; cbn [vel pos set_vel set_pos].
  - exists (k * (1 - 0.003 * (k * mag (vel ball)) * timeScale gs)).
    rewrite Hm2. split.
    + assert (Hd : 0 <= 0.003 * (k * mag (vel ball)) * timeScale gs <= 1).
      { split.
        - apply Rmult_le_pos; [| lra].
          apply Rmult_le_pos; [lra |]. apply Rmult_le_pos; lra.
        - assert (Hle : k * (0.003 * mag (vel ball) * timeScale gs)
                        <= 1 * (0.003 * mag (vel ball) * timeScale gs)).
          { apply Rmult_le_compat_r; [| lra].
            apply Rmult_le_pos; [| lra]. apply Rmult_le_pos; lra. }
          lra. }
      split; [apply Rmult_le_pos; lra |].
      replace 1 with (1 * 1) at 2 by lra.
      apply Rmult_le_compat; lra.
    + apply Vector2_eq; simpl; lra.
  - exists k. split; [exact Hk | reflexivity].
Qed.

Lemma integrate_damps_witness :
  let config := mkConfig 0 0.1 1 5 0 polygon 4 in
  let gs := mkSettings 1 1 1 1 in
  let ball :=
    mkBall "s-0" {| x := 0; y := 0 |} {| x := 2; y := 0 |} 5 "#FACC15" in
  exists c : R,
    0 <= c <= 1 /\ vel (integrate config gs ball) = mult (vel ball) c.
Proof.
  intros config gs ball.
  apply (integrate_damps config gs ball); simpl; try lra.
  rewrite mag_along_x, Rabs_right; lra.
Defined.

(** ** The grid (lines 128-141) *)

Lemma grid_push_keys (key : CellKey) (i : nat) (grid : Grid) (k : CellKey) :
  k ∈ fst <$> grid_push key i grid -> k = key \/ k ∈ fst <$> grid.
Proof.
  induction grid as [| [k0 b0] grid IH]; simpl.
  - intros H. apply list_elem_of_singleton in H. left. exact H.
  - destruct (decide (k0 = key)) as [-> | Hne]; simpl.
    + intros H. right. exact H.
    + intros H. apply elem_of_cons in H. destruct H as [-> | H].
      * right. left.
      * destruct (IH H) as [-> | Hin]; [left; reflexivity | right; right; exact Hin].
Qed.

Lemma grid_push_NoDup (key : CellKey) (i : nat) (grid : Grid) :
  NoDup (fst <$> grid) -> NoDup (fst <$> grid_push key i grid).
Proof.
  induction grid as [| [k0 b0] grid IH]; simpl; intros Hnodup.
  - apply NoDup_singleton.
  - apply NoDup_cons in Hnodup. destruct Hnodup as [Hnotin Hnodup].
    destruct (decide (k0 = key)) as [-> | Hne]; simpl.
    + apply NoDup_cons. split; assumption.
    + apply NoDup_cons. split; [| apply IH, Hnodup].
      intros Hin. apply grid_push_keys in Hin.
      destruct Hin as [-> | Hin]; [apply Hne; reflexivity | contradiction].
Qed.

(** An entry after a push is an entry from before, or the bucket of the
    pushed key: new, or an old bucket with the reference at its end. *)
Lemma grid_push_entries (key : CellKey) (i : nat) (grid : Grid)
    (k : CellKey) (bucket : list nat) :
  (k, bucket) ∈ grid_push key i grid ->
  (k, bucket) ∈ grid
  \/ (k = key
      /\ (bucket = [i] \/ exists b0, (k, b0) ∈ grid /\ bucket = b0 ++ [i])).
Proof.
  induction grid as [| [k0 b0] grid IH]; simpl.
  - intros H. apply list_elem_of_singleton in H. injection H as -> ->.
    right. split; [reflexivity | left; reflexivity].
  - destruct (decide (k0 = key)) as [-> | Hne]; simpl.
    + intros H. apply elem_of_cons in H. destruct H as [[= -> ->] | H].
      * right. split; [reflexivity |]. right. exists b0. split; [left | reflexivity].
      * left. right. exact H.
    + intros H. apply elem_of_cons in H. destruct H as [[= -> ->] | H].
      * left. left.
      * destruct (IH H) as [Hold | (-> & [-> | (b1 & Hb1 & ->)])].
        -- left. right. exact Hold.
        -- right. split; [reflexivity | left; reflexivity].
        -- right. split; [reflexivity |]. right. exists b1.
           split; [right; exact Hb1 | reflexivity].
Qed.

Lemma grid_push_concat (key : CellKey) (i : nat) (grid : Grid) :
  concat (snd <$> grid_push key i grid) ≡ₚ i :: concat (snd <$> grid).
Proof.
  induction grid as [| [k0 b0] grid IH]; simpl.
  - reflexivity.
  - destruct (decide (k0 = key)) as [-> | Hne]; simpl.
    + rewrite <- (assoc_L (++)). rewrite (Permutation_middle b0).
      simpl. apply Permutation_app_head. reflexivity.
    + rewrite IH. symmetry. apply Permutation_middle.
Qed.

(** With keys that differ from entry to entry, [grid.get] finds every
    entry. *)
Lemma grid_get_of_elem (key : CellKey) (bucket : list nat) (grid : Grid) :
  NoDup (fst <$> grid) -> (key, bucket) ∈ grid ->
  grid_get key grid = Some bucket.
Proof.
  induction grid as [| [k0 b0] grid IH]; simpl; intros Hnodup Hin.
  - apply elem_of_nil in Hin. contradiction.
  - apply NoDup_cons in Hnodup. destruct Hnodup as [Hnotin Hnodup].
    apply elem_of_cons in Hin. destruct Hin as [[= -> ->] | Hin].
    + destruct (decide (k0 = k0)); [reflexivity | contradiction].
    + destruct (decide (k0 = key)) as [-> | Hne]; [| apply IH; assumption].
      exfalso. apply Hnotin. apply list_elem_of_fmap.
      exists (key, bucket). split; [reflexivity | exact Hin].
Qed.

(** What populating the grid keeps, for the part [done] of the balls
    already pushed. *)
Lemma buildGrid_invariant (config : SimulationConfig) (worldBounds : R)
    (l done : list (nat * Ball)) (grid : Grid) :
  let push := fun (grid : Grid) '(i, ball) =>
                grid_push (cellOf config worldBounds (pos ball)) i grid in
  let good := fun (grid : Grid) (done : list (nat * Ball)) =>
    NoDup (fst <$> grid)
    /\ (forall k bucket, (k, bucket) ∈ grid ->
          bucket <> []
          /\ forall i, i ∈ bucket ->
               exists ball, (i, ball) ∈ done
                            /\ cellOf config worldBounds (pos ball) = k)
    /\ concat (snd <$> grid) ≡ₚ fst <$> done in
  good grid done -> good (foldl push grid l) (done ++ l).
Proof.
  intros push good. revert grid done.
  induction l as [| [i ball] l IH]; intros grid done Hgood; simpl.
  - rewrite app_nil_r. exact Hgood.
  - replace (done ++ (i, ball) :: l) with ((done ++ [(i, ball)]) ++ l)
      by (rewrite <- app_assoc; reflexivity).
    apply IH. destruct Hgood as (Hnodup & Hbuckets & Hperm).
    unfold good, push.
    split; [apply grid_push_NoDup, Hnodup |]. split.
    + intros k bucket Hin. apply grid_push_entries in Hin.
      assert (Hold : forall b0, (k, b0) ∈ grid ->
                forall j, j ∈ b0 ->
                  exists ball0, (j, ball0) ∈ done ++ [(i, ball)]
                                /\ cellOf config worldBounds (pos ball0) = k).
      { intros b0 Hb0 j Hj. destruct (Hbuckets k b0 Hb0) as [_ Hfrom].
        destruct (Hfrom j Hj) as (ball0 & Hdone & Hcell).
        exists ball0. split; [apply elem_of_app; left; exact Hdone | exact Hcell]. }
      assert (Hnew : exists ball0, (i, ball0) ∈ done ++ [(i, ball)]
                       /\ cellOf config worldBounds (pos ball0)
                          = cellOf config worldBounds (pos ball)).
      { exists ball. split; [| reflexivity].
        apply elem_of_app. right. left. }
      destruct Hin as [Hin | (-> & [-> | (b0 & Hb0 & ->)])].
      * split; [apply (Hbuckets k bucket Hin) | apply (Hold bucket Hin)].
      * split; [discriminate |]. intros j Hj.
        apply list_elem_of_singleton in Hj. subst j. exact Hnew.
      * split; [destruct b0; discriminate |]. intros j Hj.
        apply elem_of_app in Hj. destruct Hj as [Hj | Hj].
        -- apply (Hold b0 Hb0 j Hj).
        -- apply list_elem_of_singleton in Hj. subst j. exact Hnew.
    + rewrite grid_push_concat, fmap_app, Hperm. simpl.
      apply Permutation_cons_append.
Qed.

Lemma zip_seq_lookup (balls : list Ball) (i : nat) (ball : Ball) :
  (i, ball) ∈ zip (seq 0 (length balls)) balls -> balls !! i = Some ball.
Proof.
  intros Hin. apply list_elem_of_lookup in Hin. destruct Hin as (n & Hn).
  apply lookup_zip_with_Some in Hn. destruct Hn as (i' & ball' & Heq & Hseq & Hb).
  injection Heq as -> ->. apply lookup_seq in Hseq. destruct Hseq as [-> _].
  exact Hb.
Qed.

(** The grid of a list of balls: the keys differ from entry to entry; no
    bucket is empty; a bucket holds just the balls of its cell; and the
    buckets together hold every ball once. *)
Lemma buildGrid_good (config : SimulationConfig) (worldBounds : R)
    (balls : list Ball) :
  let grid := buildGrid config worldBounds balls in
  NoDup (fst <$> grid)
  /\ (forall k bucket, (k, bucket) ∈ grid ->
        bucket <> []
        /\ forall i, i ∈ bucket ->
             exists ball, balls !! i = Some ball
                          /\ cellOf config worldBounds (pos ball) = k)
  /\ concat (snd <$> grid) ≡ₚ seq 0 (length balls).
Proof.
  intros grid. subst grid. unfold buildGrid.
  pose proof (buildGrid_invariant config worldBounds
                (zip (seq 0 (length balls)) balls) [] []) as Hinv.
  cbn zeta in Hinv. simpl app in Hinv.
  destruct Hinv as (Hnodup & Hbuckets & Hperm).
  { split; [constructor |]. split; [| reflexivity].
    intros k bucket Hin. apply elem_of_nil in Hin. contradiction. }
  split; [exact Hnodup |]. split.
  - intros k bucket Hin. destruct (Hbuckets k bucket Hin) as [Hne Hfrom].
    split; [exact Hne |]. intros i Hi.
    destruct (Hfrom i Hi) as (ball & Hzip & Hcell).
    exists ball. split; [apply zip_seq_lookup, Hzip | exact Hcell].
  - rewrite Hperm. rewrite fst_zip; [reflexivity |].
    rewrite length_seq. lia.
Qed.

(** X8.  Every entry of the grid built from the balls is the entry that
    [grid.get] returns for its key; its bucket is not empty and holds just
    the balls whose centres lie in the cell of the key. *)
Theorem grid_bucket_exact (config : SimulationConfig) (worldBounds : R)
    (balls : list Ball) :
  Forall
    (fun entry : CellKey * list nat =>
       grid_get entry.1 (buildGrid config worldBounds balls) = Some entry.2
       /\ entry.2 <> []
       /\ forall i : nat,
            i ∈ entry.2
            <-> exists ball, balls !! i = Some ball
                             /\ cellOf config worldBounds (pos ball) = entry.1)
    (buildGrid config worldBounds balls).
Proof.
  destruct (buildGrid_good config worldBounds balls) as (Hnodup & Hbuckets & _).
  apply Forall_forall. intros [k bucket] Hin. cbn [fst snd].
  pose proof (grid_get_of_elem k bucket _ Hnodup Hin) as Hget.
  destruct (Hbuckets k bucket Hin) as [Hne Hfrom].
  split; [exact Hget |]. split; [exact Hne |].
  intros i. split; [apply Hfrom |].
  intros (ball & Hi & Hcell).
  destruct (buildGrid_covers config worldBounds balls i ball Hi)
    as (bucket' & Hget' & Hi').
  rewrite Hcell, Hget in Hget'. injection Hget' as <-. exact Hi'.
Qed.

(** X9.  The buckets of the grid partition the balls: put one after the
    other they hold every reference below [balls.length] once and nothing
    else. *)
Theorem grid_partition (config : SimulationConfig) (worldBounds : R)
    (balls : list Ball) :
  concat (snd <$> buildGrid config worldBounds balls)
  ≡ₚ seq 0 (length balls).
Proof. apply buildGrid_good. Qed.

(** ** The pairs that are tested (lines 143-164) *)

Lemma candidates_from (grid : Grid) (i j : nat) :
  (i, j) ∈ candidates grid ->
  exists (k : CellKey) (cellBalls neighborBalls : list nat) (dx dy : Z),
    (k, cellBalls) ∈ grid /\ i ∈ cellBalls
    /\ dx ∈ offsets /\ dy ∈ offsets
    /\ grid_get ((k.1 + dx)%Z, (k.2 + dy)%Z) grid = Some neighborBalls
    /\ j ∈ neighborBalls.
Proof.
  unfold candidates. intros H.
  apply list_elem_of_bind in H. destruct H as ([k cb] & H & Hentry).
  apply list_elem_of_bind in H. destruct H as (dx & H & Hdx).
  apply list_elem_of_bind in H. destruct H as (dy & H & Hdy).
  cbn [fst snd] in H.
  destruct (grid_get _ _) as [nb |] eqn:Hget;
    [| apply elem_of_nil in H; contradiction].
  apply list_elem_of_bind in H. destruct H as (iA & H & HiA).
  apply list_elem_of_bind in H. destruct H as (iB & H & HiB).
  apply list_elem_of_singleton in H. injection H as -> ->.
  exists k, cb, nb, dx, dy. repeat split; assumption.
Qed.

(** A logged pair is a pair the loops have visited. *)
Lemma tested_from (epsilon : R) (l : list (nat * nat)) (s : PairPhase)
    (p : nat * nat) :
  p ∈ tested (foldl (fun s p => checkPair epsilon s p.1 p.2) s l) ->
  p ∈ tested s \/ p ∈ l.
Proof.
  revert s. induction l as [| [q1 q2] l IH]; intros s; simpl.
  - intros H. left. exact H.
  - intros H. destruct (IH _ H) as [Hs | Hl]; [| right; right; exact Hl].
    destruct (checkPair_cases epsilon s q1 q2)
      as [Hsame | (_ & _ & _ & _ & _ & _ & _ & Htested)].
    + rewrite Hsame in Hs. left. exact Hs.
    + rewrite Htested in Hs. apply elem_of_app in Hs.
      destruct Hs as [Hs | Hs]; [left; exact Hs |].
      apply list_elem_of_singleton in Hs. subst p.
      right. left.
Qed.

(** The two balls of a logged pair have different ids. *)
Lemma ballCollisions_ids_differ (epsilon : R) (config : SimulationConfig)
    (shapeRadius : R) (balls : list Ball) (p : nat * nat) :
  p ∈ tested (ballCollisions epsilon config shapeRadius balls) ->
  exists a b, balls !! p.1 = Some a /\ balls !! p.2 = Some b /\ id a <> id b.
Proof.
  unfold ballCollisions.
  set (Q := fun s : PairPhase =>
              Forall2 sameIdentity balls (store s)
              /\ forall p, p ∈ tested s ->
                   exists a b, balls !! p.1 = Some a /\ balls !! p.2 = Some b
                               /\ id a <> id b).
  assert (HQ : Q (checkGrid epsilon
                    (buildGrid config (shapeRadius * 1.1) balls)
                    {| store := balls; checkedPairs := ∅; tested := [] |})).
  { apply (checkGrid_invariant epsilon Q).
    - intros s iA iB [Hids Hlog].
      split; [apply checkPair_sameIdentity, Hids |].
      destruct (checkPair_cases epsilon s iA iB)
        as [-> | (ballA & ballB & HA & HB & Hid & _ & _ & ->)];
        [exact Hlog |].
      intros q Hq. apply elem_of_app in Hq. destruct Hq as [Hq | Hq];
        [apply Hlog, Hq |].
      apply list_elem_of_singleton in Hq. subst q. cbn [fst snd].
      destruct (Forall2_lookup_r _ _ _ _ _ Hids HA) as (a0 & Ha0 & (Ha & _)).
      destruct (Forall2_lookup_r _ _ _ _ _ Hids HB) as (b0 & Hb0 & (Hb & _)).
      exists a0, b0. repeat split; try assumption. congruence.
    - split; [apply Forall2_sameIdentity_refl |].
      intros q Hq. apply elem_of_nil in Hq. contradiction. }
  intros Hp. apply HQ, Hp.
Qed.

Lemma offset_near (d : Z) : d ∈ offsets -> (Z.abs d <= 1)%Z.
Proof.
  unfold offsets. intros H.
  repeat (apply elem_of_cons in H; destruct H as [-> | H]; [lia |]).
  apply elem_of_nil in H. contradiction.
Qed.

(** X10.  The collision logic is only ever run for two different balls
    with different ids whose cells, when the grid was built, were at most
    one apart in each axis: never for a ball and itself, and never for two
    balls in cells further apart. *)
Theorem tested_pairs_sound (epsilon : R) (config : SimulationConfig)
    (shapeRadius : R) (balls : list Ball) :
  Forall
    (fun p : nat * nat =>
       exists a b : Ball,
         balls !! p.1 = Some a /\ balls !! p.2 = Some b
         /\ p.1 <> p.2 /\ id a <> id b
         /\ (Z.abs ((cellOf config (shapeRadius * 1.1) (pos b)).1
                    - (cellOf config (shapeRadius * 1.1) (pos a)).1) <= 1)%Z
         /\ (Z.abs ((cellOf config (shapeRadius * 1.1) (pos b)).2
                    - (cellOf config (shapeRadius * 1.1) (pos a)).2) <= 1)%Z)
    (tested (ballCollisions epsilon config shapeRadius balls)).
Proof.
  apply Forall_forall. intros [i j] Hp.
  destruct (ballCollisions_ids_differ epsilon config shapeRadius balls _ Hp)
    as (a & b & Ha & Hb & Hid).
  cbn [fst snd] in *. exists a, b.
  split; [exact Ha |]. split; [exact Hb |].
  split; [intros ->; rewrite Ha in Hb; injection Hb as ->; contradiction |].
  split; [exact Hid |].
  unfold ballCollisions in Hp. rewrite checkGrid_candidates in Hp.
  apply tested_from in Hp. destruct Hp as [Hp | Hp];
    [apply elem_of_nil in Hp; contradiction |].
  destruct (candidates_from _ i j Hp)
    as (k & cb & nb & dx & dy & Hentry & Hi & Hdx & Hdy & Hget & Hj).
  destruct (buildGrid_good config (shapeRadius * 1.1) balls)
    as (_ & Hbuckets & _).
  destruct (Hbuckets k cb Hentry) as [_ HfromA].
  destruct (HfromA i Hi) as (a' & Ha' & HcellA).
  apply grid_get_elem in Hget.
  destruct (Hbuckets _ nb Hget) as [_ HfromB].
  destruct (HfromB j Hj) as (b' & Hb' & HcellB).
  rewrite Ha in Ha'. injection Ha' as <-.
  rewrite Hb in Hb'. injection Hb' as <-.
  rewrite HcellA, HcellB. cbn [fst snd].
  apply offset_near in Hdx, Hdy. split; lia.
Qed.

(** X11.  The guard [balls.length > 1] of line 127 only saves work: a tick
    gives the balls that the pair phase, run without the guard, and the
    final check give. *)
Theorem pair_phase_guard_is_optimisation (epsilon : R)
    (config : SimulationConfig) (gs : GlobalSettings) (width height : R)
    (state : State) :
  let shapeRadius := Rmin width height * 0.45 in
  let rotation :=
    rotation state + rotationSpeed config * rotationMultiplier gs * timeScale gs in
  let localVertices := shapeVertices config shapeRadius rotation in
  balls (updatePhysics epsilon config gs width height state)
  = map (hardLimit shapeRadius)
        (store (ballCollisions epsilon config shapeRadius
                  (map (updateBall epsilon config gs localVertices)
                       (balls state)))).
Proof.
  intros shapeRadius rotation localVertices.
  rewrite updatePhysics_final_check. unfold ballsBeforeFinalCheck.
  fold shapeRadius rotation localVertices.
  set (moved := map (updateBall epsilon config gs localVertices) (balls state)).
  destruct (1 <? length moved)%nat eqn:Hlen; [reflexivity |].
  apply Nat.ltb_ge in Hlen.
  rewrite ballCollisions_clear; [reflexivity |].
  intros i j a b Hij Hi Hj.
  apply lookup_lt_Some in Hi, Hj. lia.
Qed.

(** *** The number of tests *)

Lemma NoDup_fmap_coarser {A B C : Type} (f : A -> B) (g : A -> C)
    (l : list A) :
  (forall a a', a ∈ l -> a' ∈ l -> g a = g a' -> f a = f a') ->
  NoDup (f <$> l) -> NoDup (g <$> l).
Proof.
  induction l as [| a l IH]; intros Hfg Hnodup; simpl; [constructor |].
  rewrite fmap_cons in Hnodup. apply NoDup_cons in Hnodup.
  destruct Hnodup as [Hnotin Hnodup]. apply NoDup_cons. split.
  - intros Hin. apply Hnotin. apply list_elem_of_fmap in Hin.
    destruct Hin as (a' & Heq & Ha'). apply list_elem_of_fmap.
    exists a'. split; [| exact Ha'].
    apply Hfg; [left | right; exact Ha' | exact Heq].
  - apply IH; [| exact Hnodup].
    intros a1 a2 H1 H2. apply Hfg; right; assumption.
Qed.

Lemma length_bind_singleton {A B : Type} (f : A -> B) (l : list A) :
  length (l ≫= fun a => [f a]) = length l.
Proof.
  induction l as [| a l IH]; [reflexivity |].
  rewrite bind_cons. cbn [app length]. rewrite IH. reflexivity.
Qed.

Lemma allPairs_length_from (n m a : nat) :
  (a + m = n)%nat ->
  (2 * length (seq a m ≫= fun i => seq (S i) (n - S i) ≫= fun j => [(i, j)])
   = m * (m - 1))%nat.
Proof.
  revert a. induction m as [| m IH]; intros a Ha; [reflexivity |].
  cbn [seq]. rewrite bind_cons, length_app, length_bind_singleton, length_seq.
  specialize (IH (S a) ltac:(lia)). nia.
Qed.

Lemma allPairs_length (n : nat) :
  (2 * length (allPairs n) = n * (n - 1))%nat.
Proof. apply (allPairs_length_from n n 0). lia. Qed.

Lemma sortedPair_allPairs (n : nat) (p : nat * nat) :
  (p.1 < n)%nat -> (p.2 < n)%nat -> p.1 <> p.2 ->
  sortedPair p ∈ allPairs n.
Proof.
  intros H1 H2 Hne. unfold allPairs, sortedPair.
  apply list_elem_of_bind. exists (Nat.min p.1 p.2). split.
  - apply list_elem_of_bind. exists (Nat.max p.1 p.2). split; [left |].
    apply elem_of_seq. lia.
  - apply elem_of_seq. lia.
Qed.

Lemma sortedPair_eq (p q : nat * nat) :
  sortedPair p = sortedPair q -> q = p \/ q = (p.2, p.1).
Proof.
  destruct p as [p1 p2], q as [q1 q2]. unfold sortedPair; simpl.
  intros [= Hmin Hmax].
  assert (H : (q1 = p1 /\ q2 = p2) \/ (q1 = p2 /\ q2 = p1)) by lia.
  destruct H as [[-> ->] | [-> ->]]; [left | right]; reflexivity.
Qed.

(** X12.  A tick runs the collision logic for at most every unordered pair
    of balls once: with [n] balls, at most [n * (n - 1) / 2] times. *)
Theorem tests_per_tick_bounded (epsilon : R) (config : SimulationConfig)
    (shapeRadius : R) (balls : list Ball) :
  (2 * length (tested (ballCollisions epsilon config shapeRadius balls))
   <= length balls * (length balls - 1))%nat.
Proof.
  set (t := tested (ballCollisions epsilon config shapeRadius balls)).
  destruct (ballCollisions_pairInv epsilon config shapeRadius balls)
    as (_ & _ & Hnodup & _). fold t in Hnodup.
  assert (Hsorted : NoDup (sortedPair <$> t)).
  { apply (NoDup_fmap_coarser (keyOf balls)); [| exact Hnodup].
    intros p q _ _ Heq. apply sortedPair_eq in Heq.
    destruct Heq as [-> | ->]; [reflexivity |].
    destruct p as [p1 p2]. symmetry. apply keyOf_swap. }
  assert (Hsub : forall p, p ∈ sortedPair <$> t -> p ∈ allPairs (length balls)).
  { intros p Hp. apply list_elem_of_fmap in Hp. destruct Hp as (q & -> & Hq).
    destruct (ballCollisions_ids_differ epsilon config shapeRadius balls q Hq)
      as (a & b & Ha & Hb & Hid).
    apply sortedPair_allPairs.
    - apply lookup_lt_Some in Ha. exact Ha.
    - apply lookup_lt_Some in Hb. exact Hb.
    - intros Heq. rewrite Heq, Hb in Ha. injection Ha as ->. contradiction. }
  pose proof (submseteq_length _ _ (NoDup_submseteq _ _ Hsorted Hsub)) as Hlen.
  rewrite length_fmap in Hlen.
  pose proof (allPairs_length (length balls)) as Hall. lia.
Qed.

(** * The initialisation (lines 27-52) *)

Lemma Forall2_sameIdentity_trans (l1 l2 l3 : list Ball) :
  Forall2 sameIdentity l1 l2 -> Forall2 sameIdentity l2 l3 ->
  Forall2 sameIdentity l1 l3.
Proof.
  intros H12. revert l3. induction H12 as [| a b l1 l2 Hab _ IH]; intros l3 H23.
  - inversion H23. constructor.
  - inversion H23 as [| b' c l2' l3' Hbc Htl]; subst. constructor.
    + eapply sameIdentity_trans; eassumption.
    + apply IH, Htl.
Qed.

(** Steps 1 to 4 of a tick keep the identity of every ball. *)
Lemma ballsBeforeFinalCheck_sameIdentity (epsilon : R)
    (config : SimulationConfig) (gs : GlobalSettings) (width height : R)
    (state : State) :
  Forall2 sameIdentity (balls state)
    (ballsBeforeFinalCheck epsilon config gs width height state).
Proof.
  unfold ballsBeforeFinalCheck. set (verts := shapeVertices _ _ _).
  assert (Hupd : Forall2 sameIdentity (balls state)
                   (map (updateBall epsilon config gs verts) (balls state))).
  { induction (balls state) as [| b l IH]; simpl; constructor.
    - apply updateBall_sameIdentity.
    - exact IH. }
  destruct (_ <? _)%nat; [| exact Hupd].
  unfold ballCollisions.
  apply (checkGrid_invariant epsilon
           (fun s => Forall2 sameIdentity (balls state) (store s))).
  - intros s iA iB. apply checkPair_sameIdentity.
  - exact Hupd.
Qed.

(** Any number of ticks keeps the identity of every ball. *)
Lemma run_sameIdentity (epsilon : R) (config : SimulationConfig)
    (gs : GlobalSettings) (width height : R) (N : nat) (state : State) :
  Forall2 sameIdentity (balls state)
    (balls (run epsilon config gs width height N state)).
Proof.
  revert state. induction N as [| N IH]; intros state; cbn [run].
  - apply Forall2_sameIdentity_refl.
  - eapply Forall2_sameIdentity_trans; [| apply IH].
    rewrite updatePhysics_final_check.
    apply (Forall2_map_right sameIdentity).
    + intros a b Hab. eapply sameIdentity_trans; [exact Hab |].
      apply hardLimit_sameIdentity.
    + apply ballsBeforeFinalCheck_sameIdentity.
Qed.

Lemma initSimulation_createdBy (seed : Seed) (config : SimulationConfig)
    (random : nat -> R) :
  createdBy (configId seed) (balls (initSimulation seed config random)).
Proof.
  intros i ball Hi. cbn [balls initSimulation] in Hi.
  rewrite list_lookup_fmap in Hi.
  destruct (seq 0 (ballTotal seed) !! i) as [n |] eqn:Hn; [| discriminate].
  apply lookup_seq in Hn. destruct Hn as [-> _].
  injection Hi as <-. reflexivity.
Qed.

(** X13.  In every state that ticks reach from the initialisation, the
    balls are as many as were created, each has the radius [ballSize], the
    ids differ from ball to ball, and the pair keys tell the pairs apart:
    what the pair phase relies on holds throughout. *)
Theorem reachable_balls_well_formed (epsilon : R) (seed : Seed)
    (config : SimulationConfig) (gs : GlobalSettings) (random : nat -> R)
    (width height : R) (N : nat) :
  let state :=
    run epsilon config gs width height N (initSimulation seed config random) in
  length (balls state) = ballTotal seed
  /\ Forall (fun ball => radius ball = ballSize config) (balls state)
  /\ NoDup (id <$> balls state)
  /\ keysSeparate (balls state).
Proof.
  intros state.
  pose proof (run_sameIdentity epsilon config gs width height N
                (initSimulation seed config random)) as Hsame.
  fold state in Hsame.
  pose proof (initSimulation_createdBy seed config random) as Hinit.
  assert (Hcreated : createdBy (configId seed) (balls state)).
  { intros i ball Hi.
    destruct (Forall2_lookup_r _ _ _ _ _ Hsame Hi) as (b0 & Hb0 & (Hid & _)).
    rewrite Hid. apply Hinit, Hb0. }
  split; [| split; [| apply (createdBy_ids (configId seed)), Hcreated]].
  - rewrite <- (Forall2_length _ _ _ Hsame).
    cbn [balls initSimulation]. rewrite length_map, length_seq. reflexivity.
  - apply Forall_forall. intros ball Hin.
    apply list_elem_of_lookup in Hin. destruct Hin as (i & Hi).
    destruct (Forall2_lookup_r _ _ _ _ _ Hsame Hi) as (b0 & Hb0 & (_ & Hrad & _)).
    rewrite Hrad. cbn [balls initSimulation] in Hb0.
    rewrite list_lookup_fmap in Hb0.
    destruct (seq 0 (ballTotal seed) !! i); [| discriminate].
    injection Hb0 as <-. reflexivity.
Qed.

(** X14.  The initialisation creates [floor(ballCount)] balls, and none
    when [ballCount] is below one (a negative count included): the number
    of balls is the whole part of a [ballCount] that is not negative. *)
Theorem initSimulation_count (seed : Seed) (config : SimulationConfig)
    (random : nat -> R) :
  let n := length (balls (initSimulation seed config random)) in
  (ballCount seed < 1 -> n = O)
  /\ (0 <= ballCount seed -> INR n <= ballCount seed < INR n + 1).
Proof.
  intros n. subst n. cbn [balls initSimulation].
  rewrite length_map, length_seq. unfold ballTotal.
  pose proof (Zfloor_bound (ballCount seed * 1)) as [Hlo Hhi].
  split.
  - intros Hsmall.
    assert (Hz : (Zfloor (ballCount seed * 1) < 1)%Z)
      by (apply lt_IZR; lra).
    lia.
  - intros Hpos.
    assert (Hz : (0 <= Zfloor (ballCount seed * 1))%Z).
    { apply Zfloor_lub. simpl. lra. }
    rewrite INR_IZR_INZ, Z2Nat.id by exact Hz. lra.
Qed.

Lemma mag_polar (a d : R) :
  mag {| x := cos a * d; y := sin a * d |} = Rabs d.
Proof.
  unfold mag; simpl.
  replace (cos a * d * (cos a * d) + sin a * d * (sin a * d))
    with (Rsqr d * (Rsqr (sin a) + Rsqr (cos a))) by (unfold Rsqr; ring).
  rewrite sin2_cos2, Rmult_1_r. apply sqrt_Rsqr_abs.
Qed.

(** X15.  When [Math.random()] gives numbers from [0] up to, not
    including, [1], every ball is created less than [30] from the centre,
    with a speed between half and one and a half times the size of
    [initialSpeed]. *)
Theorem initSimulation_ranges (seed : Seed) (config : SimulationConfig)
    (random : nat -> R) :
  (forall n : nat, 0 <= random n < 1) ->
  Forall
    (fun ball =>
       mag (pos ball) < 30
       /\ 0.5 * Rabs (initialSpeed seed) <= mag (vel ball)
          <= 1.5 * Rabs (initialSpeed seed))
    (balls (initSimulation seed config random)).
Proof.
  intros Hrandom. apply Forall_forall. intros ball Hin.
  cbn [balls initSimulation] in Hin.
  apply list_elem_of_fmap in Hin. destruct Hin as (i & -> & _).
  unfold createBall. cbn [pos vel].
  pose proof (Hrandom (4 * i + 1)%nat) as Hd.
  pose proof (Hrandom (4 * i + 2)%nat) as Hs.
  split.
  - replace {| x := 0 + cos (random (4 * i)%nat * PI * 2)
                       * (random (4 * i + 1)%nat * 30);
               y := 0 + sin (random (4 * i)%nat * PI * 2)
                       * (random (4 * i + 1)%nat * 30) |}
      with {| x := cos (random (4 * i)%nat * PI * 2)
                   * (random (4 * i + 1)%nat * 30);
              y := sin (random (4 * i)%nat * PI * 2)
                   * (random (4 * i + 1)%nat * 30) |}
      by (apply Vector2_eq; simpl; lra).
    rewrite mag_polar, Rabs_right; lra.
  - rewrite mag_polar, Rabs_mult.
    rewrite (Rabs_right (0.5 + random (4 * i + 2)%nat)) by lra.
    pose proof (Rabs_pos (initialSpeed seed)) as Habs.
    split; nra.
Qed.

(** Every call of [Math.random()] gives one half. *)
Lemma initSimulation_ranges_witness :
  let seed := mkSeed "s" 3 2 in
  let config := mkConfig 0 0 1 5 0 polygon 4 in
  Forall
    (fun ball =>
       mag (pos ball) < 30
       /\ 0.5 * Rabs 2 <= mag (vel ball) <= 1.5 * Rabs 2)
    (balls (initSimulation seed config (fun _ => 0.5))).
Proof.
  intros seed config.
  apply (initSimulation_ranges seed config (fun _ => 0.5)).
  intros n. lra.
Defined.

(** * Conservation in the pair phase (lines 143-209) *)

Lemma sumOver_insert (f : Ball -> R) (l : list Ball) (i : nat) (a a' : Ball) :
  l !! i = Some a ->
  sumOver f (<[i := a']> l) = sumOver f l - f a + f a'.
Proof.
  revert i. induction l as [| b l IH]; intros i Hi; [discriminate |].
  destruct i as [| i]; simpl in *.
  - injection Hi as ->. lra.
  - rewrite (IH i Hi). lra.
Qed.

(** Replacing two balls by two with the same sum keeps the sum. *)
Lemma sumOver_insert2 (f : Ball -> R) (l : list Ball) (i j : nat)
    (a b a' b' : Ball) :
  i <> j -> l !! i = Some a -> l !! j = Some b ->
  f a' + f b' = f a + f b ->
  sumOver f (<[j := b']> (<[i := a']> l)) = sumOver f l.
Proof.
  intros Hij Hi Hj Hsum.
  rewrite (sumOver_insert f _ j b b').
  - rewrite (sumOver_insert f l i a a' Hi). lra.
  - rewrite list_lookup_insert_ne by exact Hij. exact Hj.
Qed.

(** A sum that the collision logic keeps for every pair is kept by the
    pair phase. *)
Lemma ballCollisions_sumOver (epsilon : R) (config : SimulationConfig)
    (shapeRadius : R) (f : Ball -> R) (balls : list Ball) :
  (forall a b : Ball,
     f (fst (collide epsilon a b)) + f (snd (collide epsilon a b)) = f a + f b) ->
  sumOver f (store (ballCollisions epsilon config shapeRadius balls))
  = sumOver f balls.
Proof.
  intros Hpair. unfold ballCollisions.
  apply (checkGrid_invariant epsilon
           (fun s => sumOver f (store s) = sumOver f balls));
    [| reflexivity].
  intros s iA iB Hs. unfold checkPair.
  destruct (store s !! iA) as [ballA |] eqn:HA; [| exact Hs].
  destruct (store s !! iB) as [ballB |] eqn:HB; [| exact Hs].
  destruct (decide (id ballA = id ballB)) as [| Hid]; [exact Hs |].
  destruct (decide (_ ∈ _)); [exact Hs |].
  specialize (Hpair ballA ballB).
  destruct (collide epsilon ballA ballB) as [ballA' ballB']. simpl in *.
  rewrite <- Hs. apply (sumOver_insert2 f _ iA iB ballA ballB); try assumption.
  intros ->. rewrite HA in HB. injection HB as ->. contradiction.
Qed.

(** X16.  The pair phase of a tick conserves the total momentum of the
    balls and the sum of their positions (their centroid), however many
    collisions it resolves and in whatever order. *)
Theorem pair_phase_conserves_momentum (epsilon : R)
    (config : SimulationConfig) (shapeRadius : R) (balls : list Ball) :
  let after := store (ballCollisions epsilon config shapeRadius balls) in
  sumOver (fun ball => x (vel ball)) after
  = sumOver (fun ball => x (vel ball)) balls
  /\ sumOver (fun ball => y (vel ball)) after
     = sumOver (fun ball => y (vel ball)) balls
  /\ sumOver (fun ball => x (pos ball)) after
     = sumOver (fun ball => x (pos ball)) balls
  /\ sumOver (fun ball => y (pos ball)) after
     = sumOver (fun ball => y (pos ball)) balls.
Proof.
  intros after. subst after.
  repeat split; apply ballCollisions_sumOver; intros a b;
    destruct (collide_conserves_momentum epsilon a b) as [Hv Hp];
    unfold momentum in Hv.
  - apply (f_equal x) in Hv. exact Hv.
  - apply (f_equal y) in Hv. exact Hv.
  - apply (f_equal x) in Hp. exact Hp.
  - apply (f_equal y) in Hp. exact Hp.
Qed.

(** X17.  The pair phase of a tick conserves the total kinetic energy of
    the balls: ball-ball collisions are perfectly elastic, no restitution
    enters. *)
Theorem pair_phase_conserves_energy (epsilon : R) (config : SimulationConfig)
    (shapeRadius : R) (balls : list Ball) :
  0 <= epsilon ->
  sumOver (fun ball => dot (vel ball) (vel ball) / 2)
          (store (ballCollisions epsilon config shapeRadius balls))
  = sumOver (fun ball => dot (vel ball) (vel ball) / 2) balls.
Proof.
  intros H0. apply ballCollisions_sumOver. intros a b.
  pose proof (collide_conserves_energy epsilon a b H0) as He.
  unfold kineticEnergy in He. exact He.
Qed.

(** Two overlapping balls that approach. *)
Lemma pair_phase_conserves_energy_witness :
  let config := mkConfig 0 0 1 5 0 polygon 4 in
  let a := mkBall "s-0" {| x := 0; y := 0 |} {| x := 1; y := 2 |} 5 "#FACC15" in
  let b := mkBall "s-1" {| x := 8; y := 0 |} {| x := -3; y := 1 |} 5 "#FACC15" in
  sumOver (fun ball => dot (vel ball) (vel ball) / 2)
          (store (ballCollisions 0 config 450 [a; b]))
  = sumOver (fun ball => dot (vel ball) (vel ball) / 2) [a; b].
Proof.
  intros config a b.
  apply (pair_phase_conserves_energy 0 config 450 [a; b]). lra.
Defined.
